(** * s3fs: the lazy ranged object reader of [obj.go], embedded in Rocq.

    The development follows the Go sources:
    - [parseContentRange] and the part of [fmt.Sscanf] it relies on;
    - the two store adapters [s3Client.getObject] and [blobClient.getObject];
    - the [object] reader: [Seek], [Close], [Read], [Stat], [dl],
      [parseFullResponse], [fillChunk], [parsePartialResponse];
    - the facade entry points [OpenWithContext] and [ReadFileWithContext].

    Go's [int64] (and [int], taken to be 64 bits wide) is modelled as [Z]
    with the two's-complement wrap-around written out by [wrap64]. *)

From Stdlib Require Import ZArith List String Ascii Bool Lia.
Import ListNotations.

Local Open Scope string_scope.
Local Open Scope list_scope.
Local Open Scope Z_scope.

(* ------------------------------------------------------------------ *)
(** ** Machine integers *)

Module Int64.

Definition min_int : Z := - 2 ^ 63.
Definition max_int : Z := 2 ^ 63 - 1.

Definition in_range (z : Z) : bool := (min_int <=? z) && (z <=? max_int).

(** Two's-complement reduction of a mathematical integer to [int64]. *)
Definition wrap64 (z : Z) : Z := (z + 2 ^ 63) mod 2 ^ 64 - 2 ^ 63.

Definition add (a b : Z) : Z := wrap64 (a + b).
Definition sub (a b : Z) : Z := wrap64 (a - b).

End Int64.

(* ------------------------------------------------------------------ *)
(** ** Decimal formatting, as [%d] of [fmt.Sprintf] prints an [int64] *)

Module Fmt.

Definition code (c : ascii) : Z := Z.of_N (N_of_ascii c).

Definition digit_char (d : Z) : ascii := ascii_of_N (Z.to_N (48 + d)).

(** Digits are produced from the least significant one, into [acc]. *)
Fixpoint fmt_u_aux (fuel : nat) (n : Z) (acc : string) : string :=
  match fuel with
  | O => acc
  | S f =>
      let acc' := String (digit_char (n mod 10)) acc in
      if n <? 10 then acc' else fmt_u_aux f (n / 10) acc'
  end.

(** 20 digits are enough for every 64-bit magnitude. *)
Definition fmt_u (n : Z) : string := fmt_u_aux 20 n "".

Definition fmt_d (z : Z) : string :=
  if z <? 0 then String "-" (fmt_u (- z)) else fmt_u z.

End Fmt.

(* ------------------------------------------------------------------ *)
(** ** The fragment of [fmt.Sscanf] used by [parseContentRange]

    The input is a Go string, a sequence of bytes read rune by rune.  The
    format ["bytes %d-%d/%d"] only compares runes with ASCII characters,
    so a byte-level reading is exact once the multi-byte space runes of
    [fmt.isSpace] are recognised. *)

Module Scan.

Import Fmt.

Inductive fmt_item : Type :=
| FLit (c : ascii)   (* a literal rune of the format *)
| FSpace             (* a run of spaces in the format, without newline *)
| FVerbD.            (* the verb %d, scanning into an *int64 *)

Definition is_newline (c : ascii) : bool := code c =? 10.

(** Width in bytes of the leading rune of [s] when [fmt.isSpace] holds
    for it (newline included), [0] otherwise. *)
Definition space_width (s : string) : nat :=
  match s with
  | EmptyString => 0%nat
  | String c0 r0 =>
      let b0 := code c0 in
      if ((9 <=? b0) && (b0 <=? 13)) || (b0 =? 32) then 1%nat
      else
        match r0 with
        | EmptyString => 0%nat
        | String c1 r1 =>
            let b1 := code c1 in
            if (b0 =? 194) && ((b1 =? 133) || (b1 =? 160)) then 2%nat
            else
              match r1 with
              | EmptyString => 0%nat
              | String c2 _ =>
                  let b2 := code c2 in
                  if (b0 =? 225) && (b1 =? 154) && (b2 =? 128) then 3%nat
                  else if (b0 =? 226) && (b1 =? 128)
                          && (((128 <=? b2) && (b2 <=? 138))
                              || (b2 =? 168) || (b2 =? 169) || (b2 =? 175))
                  then 3%nat
                  else if (b0 =? 226) && (b1 =? 129) && (b2 =? 159) then 3%nat
                  else if (b0 =? 227) && (b1 =? 128) && (b2 =? 128) then 3%nat
                  else 0%nat
              end
        end
  end.

Fixpoint drop (n : nat) (s : string) : string :=
  match n, s with
  | S n', String _ r => drop n' r
  | _, _ => s
  end.

Definition starts_with_newline (s : string) : bool :=
  match s with
  | String c _ => is_newline c
  | EmptyString => false
  end.

(** Consumes the space runes at the head of [s], stopping in front of a
    newline.  [fuel] bounds the number of runes looked at. *)
Fixpoint skip_spaces (fuel : nat) (s : string) : string :=
  match fuel with
  | O => s
  | S f =>
      if starts_with_newline s then s
      else match space_width s with
           | O => s
           | w => skip_spaces f (drop w s)
           end
  end.

(** [ss.SkipSpace] with [nlIsSpace = false]: spaces are skipped and a
    newline is the error "unexpected newline". *)
Definition SkipSpace (s : string) : option string :=
  let s' := skip_spaces (String.length s) s in
  if starts_with_newline s' then None else Some s'.

(** A run of spaces of the format, in [ss.advance]: end of input, or at
    least one space that is not a newline; the spaces that follow are
    consumed up to a newline. *)
Definition advance_space (s : string) : option string :=
  match s with
  | EmptyString => Some s
  | _ =>
      if starts_with_newline s then None
      else match space_width s with
           | O => None
           | _ => Some (skip_spaces (String.length s) s)
           end
  end.

Definition is_sign (c : ascii) : bool := (code c =? 43) || (code c =? 45).
Definition is_digit (c : ascii) : bool := (48 <=? code c) && (code c <=? 57).
Definition is_underscore (c : ascii) : bool := code c =? 95.

(** The characters [scanNumber] accepts for the verb d: ["0123456789_"]. *)
Definition accepted (c : ascii) : bool := is_digit c || is_underscore c.

Fixpoint span_accepted (s : string) : string * string :=
  match s with
  | String c r =>
      if accepted c
      then let (tok, rest) := span_accepted r in (String c tok, rest)
      else (EmptyString, s)
  | EmptyString => (EmptyString, EmptyString)
  end.

(** [strconv.ParseUint] in base 10, without the range check: an
    underscore or any other non-digit is a syntax error. *)
Fixpoint parse_uint_acc (acc : Z) (s : string) : option Z :=
  match s with
  | EmptyString => Some acc
  | String c r =>
      if is_digit c then parse_uint_acc (acc * 10 + (code c - 48)) r else None
  end.

(** [strconv.ParseInt(tok, 10, 64)] on a token made of an optional sign
    and a non-empty digit string: the value, or [None] for a syntax or
    range error. *)
Definition ParseInt (neg : bool) (digits : string) : option Z :=
  match digits with
  | EmptyString => None
  | _ =>
      match parse_uint_acc 0 digits with
      | None => None
      | Some un =>
          let v := if neg then - un else un in
          if Int64.in_range v then Some v else None
      end
  end.

(** [ss.scanInt] for the verb d. *)
Definition scanInt (s : string) : option (Z * string) :=
  match SkipSpace s with
  | None => None
  | Some s1 =>
      let '(neg, s2) :=
        match s1 with
        | String c r => if is_sign c then (code c =? 45, r) else (false, s1)
        | EmptyString => (false, s1)
        end in
      let (tok, rest) := span_accepted s2 in
      match ParseInt neg tok with
      | None => None
      | Some v => Some (v, rest)
      end
  end.

(** [ss.doScanf]: the values stored so far, in order, and whether the
    whole format was processed without error.  Input left over after the
    format is exhausted is not looked at. *)
Fixpoint doScanf (format : list fmt_item) (input : string) (acc : list Z)
  : list Z * bool :=
  match format with
  | [] => (acc, true)
  | FLit c :: f =>
      match input with
      | String c' rest =>
          if Ascii.eqb c c' then doScanf f rest acc else (acc, false)
      | EmptyString => (acc, false)
      end
  | FSpace :: f =>
      match advance_space input with
      | Some rest => doScanf f rest acc
      | None => (acc, false)
      end
  | FVerbD :: f =>
      match scanInt input with
      | Some (v, rest) => doScanf f rest (acc ++ [v])
      | None => (acc, false)
      end
  end.

Definition lits (s : string) : list fmt_item :=
  map FLit (list_ascii_of_string s).

(** *** Shapes of input, for the statements about the scanner *)

Fixpoint all_digits (s : string) : bool :=
  match s with
  | EmptyString => true
  | String c r => is_digit c && all_digits r
  end.

(** The next character cannot continue a number token. *)
Definition ends_token (s : string) : bool :=
  match s with
  | EmptyString => true
  | String c _ => negb (accepted c)
  end.

(** Characters that are neither a space rune nor the start of one. *)
Definition plain (c : ascii) : Prop := 33 <= code c < 128.



(** The part of the format after ["bytes "]. *)
Definition fields_format : list fmt_item :=
  [FVerbD; FLit "-"; FVerbD; FLit "/"; FVerbD].

End Scan.

(* ------------------------------------------------------------------ *)
(** ** [parseContentRange] *)

(** The format string ["bytes %d-%d/%d"]. *)
Definition content_range_format : list Scan.fmt_item :=
  Scan.lits "bytes" ++ [Scan.FSpace; Scan.FVerbD]
    ++ Scan.lits "-" ++ [Scan.FVerbD] ++ Scan.lits "/" ++ [Scan.FVerbD].

(** The named results [start], [end] and [total] start at zero and keep
    whatever [Sscanf] stored before an error; [ok] is [n == 3] when
    [Sscanf] reports no error. *)
Definition parseContentRange (s : option string) : Z * Z * Z * bool :=
  match s with
  | None => (0, 0, 0, false)
  | Some str =>
      let (vals, noerr) := Scan.doScanf content_range_format str [] in
      let start := nth 0 vals 0 in
      let end_ := nth 1 vals 0 in
      let total := nth 2 vals 0 in
      if noerr
      then (start, end_, total, Nat.eqb (List.length vals) 3)
      else (start, end_, total, false)
  end.

Definition content_range_string (start end_ total : Z) : string :=
  ("bytes " ++ Fmt.fmt_d start ++ "-" ++ Fmt.fmt_d end_ ++ "/" ++ Fmt.fmt_d total)%string.

(* ------------------------------------------------------------------ *)
(** ** Data model of [obj.go] *)

(** [time.Time], as an instant counted from the zero time. *)
Definition time : Type := Z.
Definition IsZero (t : time) : bool := t =? 0.
Definition Equal (t u : time) : bool := t =? u.

(** Errors a store client can return; the reader treats them as opaque
    [error] values. *)
Inductive client_error : Type :=
| NotFound
| RangeNotSatisfiable
| Transport (code : Z).

Inductive error : Type :=
| ErrClient (e : client_error)            (* returned by [client.getObject] *)
| ErrLastModifiedChanged (before now : time)
| ErrCopy (code : Z)                      (* [io.Copy] failed on the body *)
| ErrParseContentRange (s : option string)
| ErrSeekWhence
| ErrSeekNegative
| EOF.

(** A response body as [io.Copy] sees it: the bytes it delivers and, when
    the stream breaks, the error that ends it. *)
Record stream : Type := mkStream {
  data : list Byte.byte;
  broken : option Z
}.

Record getObjectResponse : Type := mkResponse {
  body : stream;
  contentLength : Z;
  contentRange : option string;
  lastModified : time
}.

(** The fields of [object]; [ctx] carries no data and the [client] is the
    parameter of the section below. *)
Record object : Type := mkObject {
  buf : list Byte.byte;
  bufLen : Z;
  name : string;
  dlOffset : Z;
  size : Z;
  modTime : time;
  rOffset : Z;
  completelyLoaded : bool
}.

Definition set_buf (o : object) (b : list Byte.byte) : object :=
  mkObject b (bufLen o) (name o) (dlOffset o) (size o) (modTime o)
           (rOffset o) (completelyLoaded o).
Definition set_modTime (o : object) (t : time) : object :=
  mkObject (buf o) (bufLen o) (name o) (dlOffset o) (size o) t
           (rOffset o) (completelyLoaded o).
Definition set_size (o : object) (n : Z) : object :=
  mkObject (buf o) (bufLen o) (name o) (dlOffset o) n (modTime o)
           (rOffset o) (completelyLoaded o).
Definition set_dlOffset (o : object) (n : Z) : object :=
  mkObject (buf o) (bufLen o) (name o) n (size o) (modTime o)
           (rOffset o) (completelyLoaded o).
Definition set_rOffset (o : object) (n : Z) : object :=
  mkObject (buf o) (bufLen o) (name o) (dlOffset o) (size o) (modTime o)
           n (completelyLoaded o).
Definition set_completelyLoaded (o : object) (b : bool) : object :=
  mkObject (buf o) (bufLen o) (name o) (dlOffset o) (size o) (modTime o)
           (rOffset o) b.

(** [buf.Len()]; nothing is ever read out of the [bytes.Buffer], so this
    is also [len(buf.Bytes())]. *)
Definition buf_Len (o : object) : Z := Z.of_nat (List.length (buf o)).

(** A call of the capability: key, offset and inclusive end. *)
Definition request : Type := (string * Z * Z)%type.

(** What [Read] hands back: the bytes copied into the destination (their
    number is the returned count), an error with count 0, or the run-time
    panic of a slice expression out of range. *)
Inductive read_result : Type :=
| ReadOk (copied : list Byte.byte)
| ReadErr (e : error)
| ReadPanic.

Record FileInfo : Type := mkFileInfo {
  fi_Name : string;
  fi_Size : Z;
  fi_Mode : Z;
  fi_ModTime : time;
  fi_IsDir : bool
}.

(** [fs.ModePerm], 0o777. *)
Definition ModePerm : Z := 511.

Definition SeekStart : Z := 0.
Definition SeekCurrent : Z := 1.
Definition SeekEnd : Z := 2.

(* ------------------------------------------------------------------ *)
(** ** The reader, over an arbitrary store client *)

Section Reader.

(** The store behind the [client] interface: its state and its one
    operation. *)
Variable W : Type.
Variable getObject :
  W -> string -> Z -> Z -> W * (client_error + getObjectResponse).

(** The store together with the log of the calls made so far. *)
Record env : Type := mkEnv {
  world : W;
  calls : list request
}.

Definition call_client (e : env) (key : string) (offset count : Z)
  : env * (client_error + getObjectResponse) :=
  let (w', r) := getObject (world e) key offset count in
  (mkEnv w' (calls e ++ [(key, offset, count)]), r).

(** [io.Copy(&obj.buf, rsp.body)]: what the body delivers is appended,
    also when the stream breaks. *)
Definition io_Copy (o : object) (b : stream) : object * option error :=
  (set_buf o (buf o ++ data b),
   match broken b with
   | Some c => Some (ErrCopy c)
   | None => None
   end).

(** The tagless [switch] evaluates its cases in order; [default], taken
    when none holds, falls through to the body of the first case. *)
Definition parseFullResponse (o : object) (rsp : getObjectResponse)
  : object * option error :=
  let guard :=
    if IsZero (modTime o) then inl (set_modTime o (lastModified rsp))
    else if negb (Equal (modTime o) (lastModified rsp))
         then inr (ErrLastModifiedChanged (modTime o) (lastModified rsp))
         else inl (set_modTime o (lastModified rsp)) in
  match guard with
  | inr e => (o, Some e)
  | inl o1 =>
      match io_Copy o1 (body rsp) with
      | (o2, Some e) => (o2, Some e)
      | (o2, None) =>
          let o3 := set_size o2 (contentLength rsp) in
          (set_completelyLoaded o3 true, None)
      end
  end.

Definition dl (o : object) (e : env) : object * env * option error :=
  match call_client e (name o) (-1) 0 with
  | (e', inl err) => (o, e', Some (ErrClient err))
  | (e', inr rsp) =>
      let (o', r) := parseFullResponse o rsp in (o', e', r)
  end.

Definition parsePartialResponse (o : object) (rsp : getObjectResponse)
  : object * option error :=
  let o1 := set_modTime o (lastModified rsp) in
  match io_Copy o1 (body rsp) with
  | (o2, Some e) => (o2, Some e)
  | (o2, None) =>
      let '(_, end_, size_, ok) := parseContentRange (contentRange rsp) in
      if negb ok then (o2, Some (ErrParseContentRange (contentRange rsp)))
      else
        let o3 := set_size o2 size_ in
        let o4 := set_dlOffset o3 (Int64.add end_ 1) in
        (set_completelyLoaded o4 (end_ =? Int64.sub size_ 1), None)
  end.

Definition fillChunk (full : bool) (o : object) (e : env)
  : object * env * option error :=
  if bufLen o =? 0 then dl o e
  else
    let end0 := Int64.sub (Int64.add (dlOffset o) (bufLen o)) 1 in
    let end_ := if full then Int64.sub (size o) 1 else end0 in
    match call_client e (name o) (dlOffset o) end_ with
    | (e', inl err) =>
        if dlOffset o =? 0 then dl o e'
        else (o, e', Some (ErrClient err))
    | (e', inr rsp) =>
        let (o', r) := parsePartialResponse o rsp in (o', e', r)
    end.

(** [Seek]; [whence] is Go's [int], [io.SeekStart] = 0, [io.SeekCurrent]
    = 1 and [io.SeekEnd] = 2. *)
Definition Seek (o : object) (offset whence : Z) : object * (error + Z) :=
  let target :=
    if whence =? SeekStart then Some offset
    else if whence =? SeekCurrent then Some (Int64.add (rOffset o) offset)
    else if whence =? SeekEnd then Some (Int64.add (size o) offset)
    else None in
  match target with
  | None => (o, inl ErrSeekWhence)
  | Some newOffset =>
      if newOffset <? 0 then (o, inl ErrSeekNegative)
      else (set_rOffset o newOffset, inr newOffset)
  end.

Definition Close (o : object) : object * option error := (o, None).

Definition Stat (o : object) : FileInfo * option error :=
  (mkFileInfo (name o) (size o) ModePerm (modTime o) false, None).

(** [copy(b, obj.buf.Bytes()[obj.rOffset:])] for a destination of length
    [k], then the advance of the read offset. *)
Definition copy_out (k : nat) (o : object) : object * read_result :=
  if (rOffset o <? 0) || (buf_Len o <? rOffset o) then (o, ReadPanic)
  else
    let src := skipn (Z.to_nat (rOffset o)) (buf o) in
    let copied := firstn k src in
    (set_rOffset o (Int64.add (rOffset o) (Z.of_nat (List.length copied))),
     ReadOk copied).

(** [Read(b)] with [len(b) = k]. *)
Definition Read (k : nat) (o : object) (e : env)
  : object * env * read_result :=
  if rOffset o >=? size o then (o, e, ReadErr EOF)
  else
    let '(o1, e1, r) :=
      if negb (completelyLoaded o) then
        if rOffset o >? dlOffset o then fillChunk true o e
        else if Int64.sub (buf_Len o) (rOffset o) <? Z.of_nat k
             then fillChunk false o e
             else (o, e, None)
      else (o, e, None) in
    match r with
    | Some err => (o1, e1, ReadErr err)
    | None => let (o2, res) := copy_out k o1 in (o2, e1, res)
    end.

(** The value built by [OpenWithContext] and [ReadFileWithContext]
    before the first fetch. *)
Definition new_object (bufLen_ : Z) (name_ : string) : object :=
  mkObject [] bufLen_ name_ 0 0 0 0 false.

(** [OpenWithContext]: the handle is returned together with the error of
    the first [fillChunk]. *)
Definition OpenWithContext (bufLen_ : Z) (name_ : string) (e : env)
  : object * env * option error :=
  fillChunk false (new_object bufLen_ name_) e.

Definition ReadFileWithContext (bufLen_ : Z) (name_ : string) (e : env)
  : env * (error + list Byte.byte) :=
  match dl (new_object bufLen_ name_) e with
  | (_, e', Some err) => (e', inl err)
  | (o, e', None) => (e', inr (buf o))
  end.

(** *** Sequences of operations on one handle *)

Inductive op : Type :=
| OpRead (k : nat)
| OpSeek (offset whence : Z)
| OpStat
| OpClose.

Inductive outcome : Type :=
| OutRead (r : read_result)
| OutSeek (r : error + Z)
| OutStat (r : FileInfo * option error)
| OutClose (r : option error).

Definition step (a : op) (o : object) (e : env) : object * env * outcome :=
  match a with
  | OpRead k => let '(o', e', r) := Read k o e in (o', e', OutRead r)
  | OpSeek offset whence =>
      let (o', r) := Seek o offset whence in (o', e, OutSeek r)
  | OpStat => (o, e, OutStat (Stat o))
  | OpClose => let (o', r) := Close o in (o', e, OutClose r)
  end.

Fixpoint run (ops : list op) (o : object) (e : env)
  : object * env * list outcome :=
  match ops with
  | [] => (o, e, [])
  | a :: rest =>
      let '(o1, e1, out) := step a o e in
      let '(o2, e2, outs) := run rest o1 e1 in
      (o2, e2, out :: outs)
  end.

(** Reading to the end of the stream, as [io.ReadAll] does: [Read] is
    called with destinations of the lengths [ks 0], [ks 1], ... until it
    reports an error; [io.EOF] ends the loop with the bytes collected.
    [None] when [fuel] calls were not enough. *)
Fixpoint read_to_eof (fuel : nat) (ks : nat -> nat) (i : nat)
         (o : object) (e : env) (acc : list Byte.byte)
  : option (object * env * read_result) :=
  match fuel with
  | O => None
  | S f =>
      match Read (ks i) o e with
      | (o', e', ReadOk copied) =>
          read_to_eof f ks (S i) o' e' (acc ++ copied)
      | (o', e', ReadErr EOF) => Some (o', e', ReadOk acc)
      | (o', e', ReadErr err) => Some (o', e', ReadErr err)
      | (o', e', ReadPanic) => Some (o', e', ReadPanic)
      end
  end.

End Reader.

Arguments mkEnv {W}.
Arguments world {W}.
Arguments calls {W}.
Arguments call_client {W}.
Arguments dl {W}.
Arguments fillChunk {W}.
Arguments Read {W}.
Arguments OpenWithContext {W}.
Arguments ReadFileWithContext {W}.
Arguments step {W}.
Arguments run {W}.
Arguments read_to_eof {W}.

(* ------------------------------------------------------------------ *)
(** ** The two store adapters *)

Module Adapters.

(** [s3.GetObjectInput], the fields the adapter sets. *)
Record GetObjectInput : Type := mkGetObjectInput {
  Bucket : string;
  Key : string;
  Range : option string
}.

(** [blob.HTTPRange]. *)
Record HTTPRange : Type := mkHTTPRange {
  Offset : Z;
  Count : Z
}.

(** The arguments of [azblob.Client.DownloadStream]. *)
Record DownloadStreamInput : Type := mkDownloadStreamInput {
  containerName : string;
  blobName : string;
  options_Range : HTTPRange
}.

(** What either SDK call returns, as far as the adapters read it. *)
Record sdk_output : Type := mkSdkOutput {
  Body : stream;
  ContentLength : Z;
  ContentRange : option string;
  LastModified : time
}.

Definition to_response (rsp : sdk_output) : getObjectResponse :=
  mkResponse (Body rsp) (ContentLength rsp) (ContentRange rsp)
             (LastModified rsp).

Definition s3_input (bucket key : string) (offset count : Z)
  : GetObjectInput :=
  let range_ :=
    if offset >? -1
    then Some ("bytes=" ++ Fmt.fmt_d offset ++ "-" ++ Fmt.fmt_d count)%string
    else None in
  mkGetObjectInput bucket key range_.

Definition blob_input (container key : string) (offset count : Z)
  : DownloadStreamInput :=
  let range_ :=
    if offset >? -1 then mkHTTPRange offset count else mkHTTPRange 0 0 in
  mkDownloadStreamInput container key range_.

Section Backends.

Variable W : Type.
Variable s3_GetObject : W -> GetObjectInput -> W * (client_error + sdk_output).
Variable blob_DownloadStream :
  W -> DownloadStreamInput -> W * (client_error + sdk_output).

Definition s3Client_getObject (bucket : string)
           (w : W) (key : string) (offset count : Z)
  : W * (client_error + getObjectResponse) :=
  match s3_GetObject w (s3_input bucket key offset count) with
  | (w', inl err) => (w', inl err)
  | (w', inr rsp) => (w', inr (to_response rsp))
  end.

Definition blobClient_getObject (container : string)
           (w : W) (key : string) (offset count : Z)
  : W * (client_error + getObjectResponse) :=
  match blob_DownloadStream w (blob_input container key offset count) with
  | (w', inl err) => (w', inl err)
  | (w', inr rsp) => (w', inr (to_response rsp))
  end.

End Backends.

(** The [Range] header of a request for the inclusive byte range
    [[first, last]]. *)
Definition range_header (first last : Z) : string :=
  ("bytes=" ++ Fmt.fmt_d first ++ "-" ++ Fmt.fmt_d last)%string.

(** How the Azure SDK reads an [HTTPRange] (its [FormatHTTPRange]): the
    zero value is the whole resource, a zero [Count] runs to the end of
    the resource, and otherwise [Count] is a number of bytes, the range
    ending at [Offset + Count - 1]. *)
Definition FormatHTTPRange (r : HTTPRange) : option string :=
  if (Offset r =? 0) && (Count r =? 0) then None
  else
    let endOffset :=
      if Count r >? 0 then Fmt.fmt_d (Int64.sub (Int64.add (Offset r) (Count r)) 1)
      else EmptyString in
    Some ("bytes=" ++ Fmt.fmt_d (Offset r) ++ "-" ++ endOffset)%string.

End Adapters.

(* ------------------------------------------------------------------ *)
(** ** A reference store *)

Module Store.

Record blob : Type := mkBlob {
  content : list Byte.byte;
  mtime : time
}.

(** Keys and their objects; the first entry for a key counts. *)
Definition store : Type := list (string * blob).

Fixpoint lookup (st : store) (key : string) : option blob :=
  match st with
  | [] => None
  | (k, b) :: rest => if String.eqb k key then Some b else lookup rest key
  end.

Definition blob_size (b : blob) : Z := Z.of_nat (List.length (content b)).

(** The bytes [first .. last], both included. *)
Definition slice (l : list Byte.byte) (first last : Z) : list Byte.byte :=
  firstn (Z.to_nat (last - first + 1)) (skipn (Z.to_nat first) l).

Definition whole (b : blob) : getObjectResponse :=
  mkResponse (mkStream (content b) None) (blob_size b) None (mtime b).

Definition partial (b : blob) (first last : Z) : getObjectResponse :=
  mkResponse (mkStream (slice (content b) first last) None)
             (last - first + 1)
             (Some (content_range_string first last (blob_size b)))
             (mtime b).

(** Modelled from the spec: the store behind the capability of sections
    4.2 and 6 is an external service, so this is the in-memory double the
    spec asks for.  A negative offset asks for the whole object; a missing
    key is not-found; a byte range on an object it does not intersect
    (every range on a zero-length object) is range-not-satisfiable; a
    range whose end precedes its start is no range at all, as for an HTTP
    server; otherwise the response carries the bytes of the range cut at
    the end of the object, with the content-range ["bytes a-b/total"].
    The store does not change. *)
Definition getObject (st : store) (key : string) (offset end_ : Z)
  : store * (client_error + getObjectResponse) :=
  (st,
   match lookup st key with
   | None => inl NotFound
   | Some b =>
       if offset <? 0 then inr (whole b)
       else if end_ <? offset then inr (whole b)
       else if blob_size b <=? offset then inl RangeNotSatisfiable
       else inr (partial b offset (Z.min end_ (blob_size b - 1)))
   end).

End Store.

(* ------------------------------------------------------------------ *)
(** ** The reference store behind a link that may fail *)

Module Flaky.

(** The objects, the faults still to come, one slot per call, and the
    requests that were answered with a response so far. *)
Record world : Type := mkWorld {
  objects : Store.store;
  faults : list (option client_error);
  answered : list request
}.

(** A call uses up the first slot.  A slot that holds an error makes the
    call fail with it, whatever was asked; on an empty slot, and once the
    slots are used up, the reference store answers. *)
Definition getObject (w : world) (key : string) (offset end_ : Z)
  : world * (client_error + getObjectResponse) :=
  match faults w with
  | Some err :: rest => (mkWorld (objects w) rest (answered w), inl err)
  | _ =>
      match snd (Store.getObject (objects w) key offset end_) with
      | inl err => (mkWorld (objects w) (tl (faults w)) (answered w), inl err)
      | inr rsp =>
          (mkWorld (objects w) (tl (faults w))
                   (answered w ++ [(key, offset, end_)]),
           inr rsp)
      end
  end.



End Flaky.

(* ------------------------------------------------------------------ *)
(** ** A scripted client *)

Module Script.

(** The answers still to be given, one per call; a client out of
    answers reports a transport error. *)
Definition script : Type := list (client_error + getObjectResponse).

Definition getObject (w : script) (key : string) (offset end_ : Z)
  : script * (client_error + getObjectResponse) :=
  match w with
  | [] => ([], inl (Transport 0))
  | r :: rest => (rest, r)
  end.

End Script.

Definition bytes_of (s : string) : list Byte.byte := list_byte_of_string s.

(* ------------------------------------------------------------------ *)
(** ** A provider SDK that records its inputs *)

Module Sdk.

(** The answers the SDK call will give, one per call, and the inputs it
    was called with so far.  Out of answers, it reports a transport
    error. *)
Record world (I : Type) : Type := mkWorld {
  answers : list (client_error + Adapters.sdk_output);
  seen : list I
}.

Arguments mkWorld {I}.
Arguments answers {I}.
Arguments seen {I}.

Definition call {I : Type} (w : world I) (input : I)
  : world I * (client_error + Adapters.sdk_output) :=
  match answers w with
  | [] => (mkWorld [] (seen w ++ [input]), inl (Transport 0))
  | a :: rest => (mkWorld rest (seen w ++ [input]), a)
  end.

(** The SDK input an adapter builds for a call of the capability. *)
Definition s3_input_of (bucket : string) (q : request) : Adapters.GetObjectInput :=
  let '(key, offset, count) := q in Adapters.s3_input bucket key offset count.

Definition blob_input_of (container : string) (q : request)
  : Adapters.DownloadStreamInput :=
  let '(key, offset, count) := q in Adapters.blob_input container key offset count.

End Sdk.

(* ------------------------------------------------------------------ *)
(** ** The facade of [s3.go]: options, [New], and the entry points *)

Module Facade.

(** [awsS3], without the SDK handles it carries ([optFns], [client],
    [presignClient]); [bucket] is a [*string]. *)
Record awsS3 : Type := mkAwsS3 {
  a_bufLen : Z;
  a_bucket : option string;
  a_ak : string;
  a_sk : string;
  a_region : string;
  a_endpoint : string
}.

(** [azBlobFs], without its SDK client. *)
Record azBlobFs : Type := mkAzBlobFs {
  z_container : string;
  z_bufLen : Z
}.

(** The zero value [&awsS3{}]. *)
Definition zero : awsS3 := mkAwsS3 0 None "" "" "" "".

Definition Option : Type := awsS3 -> awsS3.

Definition WithCredential (ak sk : string) : Option :=
  fun fs => mkAwsS3 (a_bufLen fs) (a_bucket fs) ak sk (a_region fs) (a_endpoint fs).

Definition WithRegion (region : string) : Option :=
  fun fs => mkAwsS3 (a_bufLen fs) (a_bucket fs) (a_ak fs) (a_sk fs) region
                    (a_endpoint fs).

Definition WithEndpoint (endpoint : string) : Option :=
  fun fs => mkAwsS3 (a_bufLen fs) (a_bucket fs) (a_ak fs) (a_sk fs) (a_region fs)
                    endpoint.

Definition WithBucket (bucket : string) : Option :=
  fun fs => mkAwsS3 (a_bufLen fs) (Some bucket) (a_ak fs) (a_sk fs) (a_region fs)
                    (a_endpoint fs).

Definition WithBufferSize (bufferSize : Z) : Option :=
  fun fs => mkAwsS3 bufferSize (a_bucket fs) (a_ak fs) (a_sk fs) (a_region fs)
                    (a_endpoint fs).

(** [strings.Contains]. *)
Fixpoint Contains (s substr : string) : bool :=
  prefix substr s
  || match s with
     | EmptyString => false
     | String _ rest => Contains rest substr
     end.

Inductive new_result : Type :=
| NewS3 (fs : awsS3)
| NewBlob (fs : azBlobFs)
| NewError
| NewPanic.       (* nil pointer dereference of [fs.bucket] *)

Section WithSdk.

(** Whether the constructors of the Azure SDK accept their arguments. *)
Variable NewSharedKeyCredential : string -> string -> bool.
Variable NewClientWithSharedKeyCredential : string -> bool.
Variable NewClientWithNoCredential : string -> bool.

Definition blob_fs (fs : awsS3) : new_result :=
  match a_bucket fs with
  | None => NewPanic
  | Some container => NewBlob (mkAzBlobFs container (a_bufLen fs))
  end.

Definition New (options : list Option) : new_result :=
  let fs0 := fold_left (fun fs op => op fs) options zero in
  let fs :=
    if String.eqb (a_region fs0) ""
    then WithRegion "us-east-1" fs0
    else fs0 in
  if Contains (a_endpoint fs) "blob.core" then
    if negb (String.eqb (a_sk fs) "") then
      if NewSharedKeyCredential (a_ak fs) (a_sk fs) then
        if NewClientWithSharedKeyCredential (a_endpoint fs)
        then blob_fs fs
        else NewError
      else NewError
    else
      if NewClientWithNoCredential (a_endpoint fs)
      then blob_fs fs
      else NewError
  else NewS3 fs.

End WithSdk.

(** [awsS3.WithBucket] (and [Namespace], which calls it): a copy with the
    bucket replaced, or a panic for the empty name. *)
Definition awsS3_WithBucket (a : awsS3) (bucket : string) : option awsS3 :=
  if String.eqb bucket "" then None else Some (WithBucket bucket a).

Definition azBlobFs_Namespace (a : azBlobFs) (container : string)
  : option azBlobFs :=
  if String.eqb container "" then None
  else Some (mkAzBlobFs container (z_bufLen a)).

(** [awsS3.OpenWithContext]; [None] is the panic of [*a.bucket] on a nil
    bucket. *)
Definition awsS3_OpenWithContext (a : awsS3) (name_ : string)
           (e : env (Sdk.world Adapters.GetObjectInput))
  : option (object * env (Sdk.world Adapters.GetObjectInput) * option error) :=
  match a_bucket a with
  | None => None
  | Some bucket =>
      Some (OpenWithContext (Adapters.s3Client_getObject _ Sdk.call bucket)
                            (a_bufLen a) name_ e)
  end.

Definition awsS3_ReadFileWithContext (a : awsS3) (name_ : string)
           (e : env (Sdk.world Adapters.GetObjectInput))
  : option (env (Sdk.world Adapters.GetObjectInput) * (error + list Byte.byte)) :=
  match a_bucket a with
  | None => None
  | Some bucket =>
      Some (ReadFileWithContext (Adapters.s3Client_getObject _ Sdk.call bucket)
                                (a_bufLen a) name_ e)
  end.

Definition azBlobFs_OpenWithContext (a : azBlobFs) (name_ : string)
           (e : env (Sdk.world Adapters.DownloadStreamInput))
  : object * env (Sdk.world Adapters.DownloadStreamInput) * option error :=
  OpenWithContext (Adapters.blobClient_getObject _ Sdk.call (z_container a))
                  (z_bufLen a) name_ e.

Definition azBlobFs_ReadFileWithContext (a : azBlobFs) (name_ : string)
           (e : env (Sdk.world Adapters.DownloadStreamInput))
  : env (Sdk.world Adapters.DownloadStreamInput) * (error + list Byte.byte) :=
  ReadFileWithContext (Adapters.blobClient_getObject _ Sdk.call (z_container a))
                      (z_bufLen a) name_ e.

End Facade.

(* ------------------------------------------------------------------ *)
(** ** Definitions used by the statements *)

(** The state after a fetch that failed with [err], against the state
    before it: the offsets, the size and the completion flag are the old
    ones and the buffer has only grown; after a client error or a rejected
    last-modified nothing at all has changed. *)
Definition failed_fetch_frame (o o' : object) (err : error) : Prop :=
  dlOffset o' = dlOffset o
  /\ rOffset o' = rOffset o
  /\ size o' = size o
  /\ completelyLoaded o' = completelyLoaded o
  /\ bufLen o' = bufLen o
  /\ name o' = name o
  /\ (exists extra, buf o' = buf o ++ extra)
  /\ match err with
     | ErrClient _ | ErrLastModifiedChanged _ _ => o' = o
     | _ => True
     end.




Definition after_first_chunk : object :=
  mkObject (bytes_of "h") 1 "hello.txt" 1 12 42 0 false.

(** The handle of an object [b] opened with chunk size [c] under [key],
    once the bytes below [d] are downloaded and the read offset is [r]. *)
Definition loaded (b : Store.blob) (c : Z) (key : string) (d r : Z) : object :=
  mkObject (firstn (Z.to_nat d) (Store.content b)) c key d (Store.blob_size b)
           (Store.mtime b) r (d =? Store.blob_size b).

Definition hello_store : Store.store :=
  [("hello.txt", Store.mkBlob (bytes_of "hello, world") 42)].

(** The handles a session over the reference store goes through, for a
    chunk size of at least one. *)
Definition session_state (key : string) (b : Store.blob) (c : Z) (o : object)
  : Prop :=
  exists d r,
    o = loaded b c key d r
    /\ 0 <= d <= Store.blob_size b
    /\ (d < Store.blob_size b -> c <= d)
    /\ 0 <= r.



(** What every operation keeps of a handle: its key, its chunk size, and
    the bytes already in its buffer, which stay in front. *)
Definition same_handle (o o' : object) : Prop :=
  name o' = name o
  /\ bufLen o' = bufLen o
  /\ exists extra, buf o' = buf o ++ extra.

Definition request_key (r : request) : string := fst (fst r).

Fixpoint count_reads (ops : list op) : nat :=
  match ops with
  | [] => 0%nat
  | OpRead _ :: rest => S (count_reads rest)
  | _ :: rest => count_reads rest
  end.

(** The request for the [i]-th chunk of [c] bytes of [key]. *)
Definition chunk_request (key : string) (c : Z) (i : nat) : request :=
  (key, Z.of_nat i * c, (Z.of_nat i + 1) * c - 1).

(* ------------------------------------------------------------------ *)
(** * Properties *)

(** ** Machine integers *)

Lemma wrap64_id (z : Z) :
  -9223372036854775808 <= z <= 9223372036854775807 -> Int64.wrap64 z = z.
Proof.
  intros H. unfold Int64.wrap64.
  change (2 ^ 63) with 9223372036854775808.
  change (2 ^ 64) with 18446744073709551616.
  rewrite Z.mod_small; lia.
Qed.

Lemma wrap64_range (z : Z) :
  -9223372036854775808 <= Int64.wrap64 z <= 9223372036854775807.
Proof.
  unfold Int64.wrap64.
  change (2 ^ 63) with 9223372036854775808.
  change (2 ^ 64) with 18446744073709551616.
  pose proof (Z.mod_pos_bound (z + 9223372036854775808) 18446744073709551616).
  lia.
Qed.

Lemma add64_id (a b : Z) :
  -9223372036854775808 <= a + b <= 9223372036854775807 -> Int64.add a b = a + b.
Proof. apply wrap64_id. Qed.

Lemma sub64_id (a b : Z) :
  -9223372036854775808 <= a - b <= 9223372036854775807 -> Int64.sub a b = a - b.
Proof. apply wrap64_id. Qed.

(** ** [Seek], [Close] and the end of the stream *)

(** C9. [Seek] takes [offset] itself for [io.SeekStart], [rOffset + offset]
    for [io.SeekCurrent] and [size + offset] for [io.SeekEnd], the sums
    being [int64] sums (the mathematical ones whenever they fit); a negative
    target is an error that leaves the whole handle as it was; any other
    target is returned and is the read offset of the handle afterwards,
    whose other fields (buffer, chunk size, key, download offset, size,
    last-modified, completion flag) are the ones it had; and as a step of a
    session, [Seek] leaves the store and the log of client calls
    untouched. *)
Theorem Seek_target_and_frame (o : object) (offset whence : Z) :
  whence = SeekStart \/ whence = SeekCurrent \/ whence = SeekEnd ->
  let target :=
    if whence =? SeekStart then offset
    else if whence =? SeekCurrent then Int64.add (rOffset o) offset
    else Int64.add (size o) offset in
  (target < 0 -> Seek o offset whence = (o, inl ErrSeekNegative))
  /\ (0 <= target ->
      Seek o offset whence
      = (mkObject (buf o) (bufLen o) (name o) (dlOffset o) (size o) (modTime o)
                  target (completelyLoaded o),
         inr target))
  /\ (Int64.in_range (rOffset o + offset) = true ->
      Int64.add (rOffset o) offset = rOffset o + offset)
  /\ (Int64.in_range (size o + offset) = true ->
      Int64.add (size o) offset = size o + offset)
  /\ (forall (W : Type) (getObject : W -> string -> Z -> Z ->
                                     W * (client_error + getObjectResponse))
             (e : env W),
         step getObject (OpSeek offset whence) o e
         = (fst (Seek o offset whence), e, OutSeek (snd (Seek o offset whence)))).
Proof.
  intros Hw target.
  assert (Hin : forall z, Int64.in_range z = true ->
                          -9223372036854775808 <= z <= 9223372036854775807).
  { intros z Hz. unfold Int64.in_range, Int64.min_int, Int64.max_int in Hz.
    apply andb_true_iff in Hz. destruct Hz as [H1 H2].
    apply Z.leb_le in H1. apply Z.leb_le in H2.
    change (2 ^ 63) with 9223372036854775808 in *. lia. }
  repeat split.
  - intros Hneg. unfold Seek. subst target.
    destruct Hw as [-> | [-> | ->]]; cbn in *;
      match goal with
      | |- context [?t <? 0] => destruct (Z.ltb_spec t 0); [reflexivity | lia]
      end.
  - intros Hpos. unfold Seek. subst target.
    destruct Hw as [-> | [-> | ->]]; cbn in *;
      match goal with
      | |- context [?t <? 0] => destruct (Z.ltb_spec t 0); [lia | reflexivity]
      end.
  - intros H. apply add64_id, Hin, H.
  - intros H. apply add64_id, Hin, H.
  - intros W getObject e. cbn. destruct (Seek o offset whence); reflexivity.
Qed.

Lemma Seek_target_and_frame_witness :
  let o := mkObject (bytes_of "he") 1 "hello.txt" 2 12 42 1 false in
  Seek o 6 SeekCurrent
  = (mkObject (bytes_of "he") 1 "hello.txt" 2 12 42 7 false, inr 7)
  /\ Seek o (-13) SeekEnd = (o, inl ErrSeekNegative).
Proof.
  intros o. split.
  - apply (Seek_target_and_frame o 6 SeekCurrent); [right; left; reflexivity |].
    vm_compute. discriminate.
  - apply (Seek_target_and_frame o (-13) SeekEnd); [right; right; reflexivity |].
    vm_compute. reflexivity.
Defined.

(** C10. [Close] returns nil and hands the handle back as it was; a session
    that starts with any number of [Close] calls goes on exactly as the
    session without them, so [Read], [Seek] and [Stat] answer the same
    before and after. *)
Theorem Close_is_noop (o : object) :
  Close o = (o, None)
  /\ (forall (W : Type) (getObject : W -> string -> Z -> Z ->
                                     W * (client_error + getObjectResponse))
             (n : nat) (ops : list op) (e : env W),
         run getObject (repeat OpClose n ++ ops) o e
         = let '(o', e', outs) := run getObject ops o e in
           (o', e', repeat (OutClose None) n ++ outs)).
Proof.
  split; [reflexivity |].
  intros W getObject n ops e. induction n as [| n IH]; cbn.
  - destruct (run getObject ops o e) as [[o' e'] outs]. reflexivity.
  - cbn in IH. rewrite IH.
    destruct (run getObject ops o e) as [[o' e'] outs]. reflexivity.
Qed.

Lemma Read_past_size
      (W : Type)
      (getObject : W -> string -> Z -> Z -> W * (client_error + getObjectResponse))
      (k : nat) (o : object) (e : env W) :
  size o <= rOffset o -> Read getObject k o e = (o, e, ReadErr EOF).
Proof.
  intros H. unfold Read.
  destruct (Z.geb_spec (rOffset o) (size o)); [reflexivity | lia].
Qed.

(** C8. A [Read] made while [rOffset >= size] returns [io.EOF] with no
    byte, and leaves the handle, the store and the log of client calls as
    they were; so does the first [Read] after a [Seek] that succeeded with a
    target at or past [size]. *)
Theorem Read_at_end_is_EOF
        (W : Type)
        (getObject : W -> string -> Z -> Z -> W * (client_error + getObjectResponse))
        (k : nat) (o : object) (e : env W) :
  (size o <= rOffset o -> Read getObject k o e = (o, e, ReadErr EOF))
  /\ (forall offset whence o' target,
         Seek o offset whence = (o', inr target) ->
         size o <= target ->
         Read getObject k o' e = (o', e, ReadErr EOF)).
Proof.
  split; [apply Read_past_size |].
  intros offset whence o' target HS Hge. apply Read_past_size.
  unfold Seek in HS.
  destruct (if whence =? SeekStart then Some offset
            else if whence =? SeekCurrent then Some (Int64.add (rOffset o) offset)
            else if whence =? SeekEnd then Some (Int64.add (size o) offset)
            else None) as [t |]; [| discriminate].
  destruct (t <? 0); [discriminate |].
  injection HS as <- <-. cbn. exact Hge.
Qed.

Lemma Read_at_end_is_EOF_witness :
  let o := mkObject (bytes_of "he") 1 "hello.txt" 2 12 42 0 false in
  let e := mkEnv ([] : Script.script) [] in
  Read Script.getObject 4 (set_rOffset o 12) e = (set_rOffset o 12, e, ReadErr EOF)
  /\ Read Script.getObject 4 (set_rOffset o 20) e = (set_rOffset o 20, e, ReadErr EOF).
Proof.
  intros o e. split.
  - apply (proj1 (Read_at_end_is_EOF _ Script.getObject 4%nat (set_rOffset o 12) e)).
    simpl. lia.
  - apply (proj2 (Read_at_end_is_EOF _ Script.getObject 4%nat o e)
                 20 SeekStart (set_rOffset o 20) 20).
    + reflexivity.
    + simpl. lia.
Defined.

(** ** The consistency guard *)

(** The whole-object path compares the response with the recorded
    last-modified and merges nothing when they differ. *)
Lemma parseFullResponse_rejects_changed (o : object) (rsp : getObjectResponse) :
  IsZero (modTime o) = false ->
  Equal (modTime o) (lastModified rsp) = false ->
  parseFullResponse o rsp
  = (o, Some (ErrLastModifiedChanged (modTime o) (lastModified rsp))).
Proof.
  intros Hz Hne. unfold parseFullResponse. rewrite Hz, Hne. reflexivity.
Qed.

(** C1. The ranged path does not compare the response with the recorded
    last-modified.  A handle opened with chunk size 1 on the two-byte object
    "ab" (last-modified 1), reading after the object was replaced by "xy"
    (last-modified 2), gets no error: the second chunk is appended, [Read]
    returns "ay", and [modTime] becomes 2.  The whole-object path, given the
    same handle and the new object, rejects the response and keeps the
    handle as it was. *)
Theorem partial_fetch_skips_consistency_guard :
  let v1 : Store.store := [("k", Store.mkBlob (bytes_of "ab") 1)] in
  let v2 : Store.store := [("k", Store.mkBlob (bytes_of "xy") 2)] in
  let '(o, e, err) := OpenWithContext Store.getObject 1 "k" (mkEnv v1 []) in
  let '(o', e', r) := Read Store.getObject 2 o (mkEnv v2 (calls e)) in
  err = None
  /\ modTime o = 1
  /\ r = ReadOk (bytes_of "ay")
  /\ buf o' = bytes_of "ay"
  /\ modTime o' = 2
  /\ calls e' = [("k", 0, 0); ("k", 1, 1)]
  /\ parseFullResponse o (Store.whole (Store.mkBlob (bytes_of "xy") 2))
     = (o, Some (ErrLastModifiedChanged 1 2)).
Proof. vm_compute. repeat split; reflexivity. Qed.

(** ** The fallback of [fillChunk] *)

(** C4. The fallback is taken on every client error met while
    [dlOffset = 0], whatever its kind.  Opening a missing key with chunk
    size 1 issues the ranged request and then a whole-object request; and a
    transport error on the first request followed by a good whole-object
    answer opens the handle with no error at all. *)
Theorem fallback_taken_on_any_error :
  let absent : Store.store := [] in
  let '(_, e1, err1) := OpenWithContext Store.getObject 1 "k" (mkEnv absent []) in
  let answers : Script.script :=
    [inl (Transport 503);
     inr (mkResponse (mkStream (bytes_of "ab") None) 2 None 1)] in
  let '(o2, e2, err2) := OpenWithContext Script.getObject 1 "k" (mkEnv answers []) in
  err1 = Some (ErrClient NotFound)
  /\ calls e1 = [("k", 0, 0); ("k", -1, 0)]
  /\ err2 = None
  /\ calls e2 = [("k", 0, 0); ("k", -1, 0)]
  /\ buf o2 = bytes_of "ab"
  /\ completelyLoaded o2 = true.
Proof. vm_compute. repeat split; reflexivity. Qed.

(** ** The adapters *)

(** For a non-negative offset the S3 adapter sends the header of the
    inclusive range [[offset, end]]; for a negative one neither adapter
    sends a range. *)
Lemma s3_input_range (bucket key : string) (offset end_ : Z) :
  Adapters.Range (Adapters.s3_input bucket key offset end_)
  = if offset <? 0 then None else Some (Adapters.range_header offset end_).
Proof.
  unfold Adapters.s3_input. cbn [Adapters.Range].
  destruct (Z.gtb_spec offset (-1)), (Z.ltb_spec offset 0);
    first [reflexivity | lia].
Qed.

Lemma blob_input_sentinel (container key : string) (offset end_ : Z) :
  offset < 0 ->
  Adapters.FormatHTTPRange
    (Adapters.options_Range (Adapters.blob_input container key offset end_))
  = None.
Proof.
  intros H. unfold Adapters.blob_input. cbn [Adapters.options_Range].
  destruct (Z.gtb_spec offset (-1)); [lia | reflexivity].
Qed.

(** C6. The blob adapter puts the inclusive end into [Count], which the
    SDK reads as a number of bytes: for (5, 9) its request is for the bytes
    5 to 13, where the S3 adapter asks for 5 to 9; and for (0, 0), the first
    request of a handle with chunk size 1, it is the zero value, a request
    for the whole blob, where the S3 adapter asks for byte 0.  With the
    sentinel offset -1 both send no range. *)
Theorem blob_adapter_range_is_not_offset_to_end :
  Adapters.Range (Adapters.s3_input "b" "k" 5 9)
  = Some (Adapters.range_header 5 9)
  /\ Adapters.options_Range (Adapters.blob_input "c" "k" 5 9)
     = Adapters.mkHTTPRange 5 9
  /\ Adapters.FormatHTTPRange
       (Adapters.options_Range (Adapters.blob_input "c" "k" 5 9))
     = Some (Adapters.range_header 5 13)
  /\ Adapters.range_header 5 13 <> Adapters.range_header 5 9
  /\ Adapters.Range (Adapters.s3_input "b" "k" 0 0)
     = Some (Adapters.range_header 0 0)
  /\ Adapters.FormatHTTPRange
       (Adapters.options_Range (Adapters.blob_input "c" "k" 0 0))
     = None
  /\ Adapters.Range (Adapters.s3_input "b" "k" (-1) 0) = None
  /\ Adapters.FormatHTTPRange
       (Adapters.options_Range (Adapters.blob_input "c" "k" (-1) 0))
     = None.
Proof. vm_compute. repeat split; try reflexivity; discriminate. Qed.

(** ** What a failed fetch leaves behind *)

Lemma failed_fetch_frame_same (o : object) (err : error) :
  failed_fetch_frame o o err.
Proof.
  unfold failed_fetch_frame. repeat split; try reflexivity.
  - exists []. symmetry. apply app_nil_r.
  - destruct err; auto.
Qed.

Lemma object_eta (o : object) :
  mkObject (buf o) (bufLen o) (name o) (dlOffset o) (size o) (modTime o)
           (rOffset o) (completelyLoaded o) = o.
Proof. destruct o; reflexivity. Qed.

Lemma parseFullResponse_failure (o o' : object) (rsp : getObjectResponse)
      (err : error) :
  parseFullResponse o rsp = (o', Some err) -> failed_fetch_frame o o' err.
Proof.
  unfold parseFullResponse, io_Copy.
  destruct (IsZero (modTime o)).
  - destruct (broken (body rsp)); cbn; intros H; inversion H; subst.
    unfold failed_fetch_frame; cbn. repeat split; eauto.
  - destruct (negb (Equal (modTime o) (lastModified rsp))).
    + intros H; inversion H; subst. apply failed_fetch_frame_same.
    + destruct (broken (body rsp)); cbn; intros H; inversion H; subst.
      unfold failed_fetch_frame; cbn. repeat split; eauto.
Qed.

Lemma parsePartialResponse_failure_frame (o o' : object)
      (rsp : getObjectResponse) (err : error) :
  parsePartialResponse o rsp = (o', Some err) -> failed_fetch_frame o o' err.
Proof.
  unfold parsePartialResponse, io_Copy.
  destruct (broken (body rsp)); cbn.
  - intros H; inversion H; subst.
    unfold failed_fetch_frame; cbn. repeat split; eauto.
  - destruct (parseContentRange (contentRange rsp)) as [[[s0 e0] t0] ok].
    destruct ok; cbn; intros H; inversion H; subst.
    unfold failed_fetch_frame; cbn. repeat split; eauto.
Qed.

Section FetchFailure.

Variable W : Type.
Variable getObject :
  W -> string -> Z -> Z -> W * (client_error + getObjectResponse).

Lemma dl_failure (o o' : object) (e e' : env W) (err : error) :
  dl getObject o e = (o', e', Some err) -> failed_fetch_frame o o' err.
Proof.
  unfold dl. destruct (call_client getObject e (name o) (-1) 0) as [e1 [ce | rsp]].
  - intros H; inversion H; subst. apply failed_fetch_frame_same.
  - destruct (parseFullResponse o rsp) as [o1 r] eqn:Hp.
    intros H; inversion H; subst.
    eapply parseFullResponse_failure; eassumption.
Qed.

Lemma fillChunk_failure (full : bool) (o o' : object) (e e' : env W)
      (err : error) :
  fillChunk getObject full o e = (o', e', Some err) ->
  failed_fetch_frame o o' err.
Proof.
  unfold fillChunk. destruct (bufLen o =? 0).
  - apply dl_failure.
  - destruct (call_client getObject e (name o) (dlOffset o) _) as [e1 [ce | rsp]].
    + destruct (dlOffset o =? 0).
      * apply dl_failure.
      * intros H; inversion H; subst. apply failed_fetch_frame_same.
    + destruct (parsePartialResponse o rsp) as [o1 r] eqn:Hp.
      intros H; inversion H; subst.
      eapply parsePartialResponse_failure_frame; eassumption.
Qed.

Lemma Read_failure (k : nat) (o o' : object) (e e' : env W) (err : error) :
  Read getObject k o e = (o', e', ReadErr err) ->
  failed_fetch_frame o o' err.
Proof.
  unfold Read. destruct (rOffset o >=? size o).
  - intros H; inversion H; subst. apply failed_fetch_frame_same.
  - assert (Hcopy : forall o1 e1,
               (let (o2, res) := copy_out k o1 in (o2, e1, res))
               = (o', e', ReadErr err) -> False).
    { intros o1 e1. unfold copy_out.
      destruct ((rOffset o1 <? 0) || (buf_Len o1 <? rOffset o1));
        intros H; inversion H. }
    destruct (negb (completelyLoaded o)).
    + destruct (rOffset o >? dlOffset o).
      * destruct (fillChunk getObject true o e) as [[o1 e1] [r |]] eqn:Hf.
        -- intros H; inversion H; subst.
           eapply fillChunk_failure; eassumption.
        -- intros H. exfalso. eapply Hcopy; eassumption.
      * destruct (Int64.sub (buf_Len o) (rOffset o) <? Z.of_nat k).
        -- destruct (fillChunk getObject false o e) as [[o1 e1] [r |]] eqn:Hf.
           ++ intros H; inversion H; subst.
              eapply fillChunk_failure; eassumption.
           ++ intros H. exfalso. eapply Hcopy; eassumption.
        -- intros H. exfalso. eapply Hcopy; eassumption.
    + intros H. exfalso. eapply Hcopy; eassumption.
Qed.

End FetchFailure.




Section FetchEffect.

Variable W : Type.
Variable getObject :
  W -> string -> Z -> Z -> W * (client_error + getObjectResponse).





End FetchEffect.



(** ** Decimal round trip *)

Module ScanFacts.

Import Fmt Scan.

Lemma append_assoc (a b c : string) :
  ((a ++ b) ++ c)%string = (a ++ (b ++ c))%string.
Proof. induction a as [| x a IH]; cbn; [reflexivity | now rewrite IH]. Qed.

Lemma append_nil_r (a : string) : (a ++ "")%string = a.
Proof. induction a as [| x a IH]; cbn; [reflexivity | now rewrite IH]. Qed.

Lemma code_digit_char (d : Z) : 0 <= d < 10 -> code (digit_char d) = 48 + d.
Proof.
  intros H. unfold code, digit_char.
  rewrite N_ascii_embedding by lia. lia.
Qed.

Lemma is_digit_digit_char (d : Z) :
  0 <= d < 10 -> is_digit (digit_char d) = true.
Proof.
  intros H. unfold is_digit. rewrite code_digit_char by assumption.
  apply andb_true_iff. split; apply Z.leb_le; lia.
Qed.

Lemma fmt_u_aux_app (fuel : nat) :
  forall n acc, fmt_u_aux fuel n acc = (fmt_u_aux fuel n "" ++ acc)%string.
Proof.
  induction fuel as [| f IH]; intros n acc; cbn; [reflexivity |].
  destruct (n <? 10); [reflexivity |].
  rewrite (IH _ (String _ acc)), (IH _ (String _ "")).
  rewrite append_assoc. reflexivity.
Qed.

Lemma all_digits_fmt_u_aux (fuel : nat) :
  forall n acc, 0 <= n -> all_digits acc = true ->
                all_digits (fmt_u_aux fuel n acc) = true.
Proof.
  induction fuel as [| f IH]; intros n acc Hn Hacc; cbn; [assumption |].
  assert (Hd : all_digits (String (digit_char (n mod 10)) acc) = true).
  { cbn. rewrite is_digit_digit_char, Hacc; [reflexivity |].
    apply Z.mod_pos_bound. lia. }
  destruct (n <? 10); [assumption |].
  apply IH; [apply Z.div_pos; lia | assumption].
Qed.

Lemma fmt_u_aux_nonempty (fuel : nat) :
  forall n c acc, exists c' s', fmt_u_aux fuel n (String c acc) = String c' s'.
Proof.
  induction fuel as [| f IH]; intros n c acc; cbn; [eauto |].
  destruct (n <? 10); [eauto |]. apply IH.
Qed.

Lemma fmt_u_aux_S_nonempty (f : nat) (n : Z) (acc : string) :
  exists c s', fmt_u_aux (S f) n acc = String c s'.
Proof.
  cbn [fmt_u_aux]. destruct (n <? 10); [eauto |]. apply fmt_u_aux_nonempty.
Qed.

Lemma parse_fmt_u_aux (fuel : nat) :
  forall n acc, 0 <= n < 10 ^ Z.of_nat fuel ->
    exists p, forall a,
      parse_uint_acc a (fmt_u_aux fuel n acc) = parse_uint_acc (a * p + n) acc.
Proof.
  induction fuel as [| f IH]; intros n acc Hn.
  - exists 1. intros a. cbn in *. f_equal. lia.
  - assert (Hm : 0 <= n mod 10 < 10) by (apply Z.mod_pos_bound; lia).
    cbn [fmt_u_aux]. destruct (Z.ltb_spec n 10) as [Hlt | Hge].
    + exists 10. intros a. cbn [parse_uint_acc].
      rewrite is_digit_digit_char, code_digit_char by assumption.
      rewrite Z.mod_small by lia. f_equal. lia.
    + destruct (IH (n / 10) (String (digit_char (n mod 10)) acc)) as [p Hp].
      { split; [apply Z.div_pos; lia |].
        apply Z.div_lt_upper_bound; [lia |].
        rewrite Nat2Z.inj_succ, Z.pow_succ_r in Hn by lia. lia. }
      exists (p * 10). intros a. rewrite Hp. cbn [parse_uint_acc].
      rewrite is_digit_digit_char, code_digit_char by assumption.
      f_equal. pose proof (Z.div_mod n 10). lia.
Qed.

Lemma span_accepted_digits (tok rest : string) :
  all_digits tok = true -> ends_token rest = true ->
  span_accepted (tok ++ rest) = (tok, rest).
Proof.
  intros Ht Hr. induction tok as [| c tok IH]; cbn [append span_accepted].
  - destruct rest as [| c r]; [reflexivity |].
    cbn [ends_token] in Hr. apply negb_true_iff in Hr.
    cbn [span_accepted]. rewrite Hr. reflexivity.
  - cbn [all_digits] in Ht. apply andb_true_iff in Ht. destruct Ht as [Hc Ht].
    unfold accepted. rewrite Hc. cbn [orb]. rewrite (IH Ht). reflexivity.
Qed.

Lemma space_width_plain (c : ascii) (r : string) :
  plain c -> space_width (String c r) = 0%nat.
Proof.
  unfold plain. intros H. unfold space_width.
  destruct (Z.leb_spec 9 (code c)), (Z.leb_spec (code c) 13),
    (Z.eqb_spec (code c) 32); try lia; cbn [andb orb];
    destruct r as [| c1 [| c2 r2]]; try reflexivity;
    destruct (Z.eqb_spec (code c) 194), (Z.eqb_spec (code c) 225),
      (Z.eqb_spec (code c) 226), (Z.eqb_spec (code c) 227);
    try lia; reflexivity.
Qed.

Lemma skip_spaces_plain (fuel : nat) (c : ascii) (r : string) :
  plain c -> skip_spaces fuel (String c r) = String c r.
Proof.
  intros H. destruct fuel as [| f]; [reflexivity |].
  cbn [skip_spaces starts_with_newline]. unfold is_newline.
  destruct (Z.eqb_spec (code c) 10) as [E | _]; [reflexivity |].
  rewrite space_width_plain by assumption. reflexivity.
Qed.

Lemma SkipSpace_plain (c : ascii) (r : string) :
  plain c -> SkipSpace (String c r) = Some (String c r).
Proof.
  intros H. unfold SkipSpace. rewrite skip_spaces_plain by assumption.
  cbn. unfold is_newline, plain in *.
  destruct (Z.eqb_spec (code c) 10); [lia | reflexivity].
Qed.

Lemma is_digit_plain (c : ascii) : is_digit c = true -> plain c.
Proof.
  unfold is_digit, plain. intros H. apply andb_true_iff in H.
  destruct H as [H1 H2]. apply Z.leb_le in H1. apply Z.leb_le in H2. lia.
Qed.

Lemma is_digit_not_sign (c : ascii) : is_digit c = true -> is_sign c = false.
Proof.
  unfold is_digit, is_sign. intros H. apply andb_true_iff in H.
  destruct H as [H1 H2]. apply Z.leb_le in H1. apply Z.leb_le in H2.
  destruct (Z.eqb_spec (code c) 43), (Z.eqb_spec (code c) 45);
    first [lia | reflexivity].
Qed.

Lemma in_range_bounds (z : Z) :
  Int64.in_range z = true <->
  -9223372036854775808 <= z <= 9223372036854775807.
Proof.
  unfold Int64.in_range, Int64.min_int, Int64.max_int.
  change (2 ^ 63) with 9223372036854775808.
  rewrite andb_true_iff, !Z.leb_le. lia.
Qed.

(** The decimal form of a magnitude is a non-empty digit string that
    [ParseUint] reads back. *)
Lemma fmt_u_spec (m : Z) :
  0 <= m <= 9223372036854775808 ->
  all_digits (fmt_u m) = true
  /\ parse_uint_acc 0 (fmt_u m) = Some m
  /\ exists c s', fmt_u m = String c s' /\ is_digit c = true.
Proof.
  intros Hm. unfold fmt_u.
  assert (Hall : all_digits (fmt_u_aux 20 m "") = true)
    by (apply all_digits_fmt_u_aux; [lia | reflexivity]).
  split; [exact Hall |]. split.
  - destruct (parse_fmt_u_aux 20 m "") as [p Hp].
    { change (10 ^ Z.of_nat 20) with 100000000000000000000. lia. }
    rewrite Hp. cbn [parse_uint_acc]. f_equal; lia.
  - assert (Hne : exists c s', fmt_u_aux 20 m "" = String c s').
    { apply (fmt_u_aux_S_nonempty 19). }
    destruct Hne as [c [s' E]]. exists c, s'. split; [exact E |].
    rewrite E in Hall. cbn in Hall. apply andb_true_iff in Hall. tauto.
Qed.

(** [%d] reads back what [%d] printed, whatever follows the number, as
    long as it cannot be taken for one more digit. *)
Lemma scanInt_fmt_d (v : Z) (rest : string) :
  Int64.in_range v = true -> ends_token rest = true ->
  scanInt (fmt_d v ++ rest) = Some (v, rest).
Proof.
  intros Hv Hrest. apply in_range_bounds in Hv.
  unfold fmt_d. destruct (Z.ltb_spec v 0) as [Hneg | Hpos].
  - destruct (fmt_u_spec (- v)) as [Hall [Hparse [c [s' [E Hc]]]]]; [lia |].
    cbn [append]. unfold scanInt.
    rewrite SkipSpace_plain by (unfold plain; cbn; lia).
    cbn [is_sign]. change (is_sign "-") with true. cbn iota.
    change (code "-" =? 45) with true.
    rewrite span_accepted_digits by assumption.
    unfold ParseInt. rewrite E. rewrite <- E. rewrite Hparse.
    replace (- - v) with v by lia.
    rewrite (proj2 (in_range_bounds v)) by lia. reflexivity.
  - destruct (fmt_u_spec v) as [Hall [Hparse [c [s' [E Hc]]]]]; [lia |].
    unfold scanInt. rewrite E. cbn [append].
    rewrite SkipSpace_plain by (apply is_digit_plain; assumption).
    rewrite (is_digit_not_sign c Hc).
    change (String c (s' ++ rest)%string) with (String c s' ++ rest)%string.
    rewrite <- E.
    rewrite span_accepted_digits by assumption.
    unfold ParseInt. rewrite E. rewrite <- E. rewrite Hparse.
    rewrite (proj2 (in_range_bounds v)) by lia. reflexivity.
Qed.

End ScanFacts.

(** ** [parseContentRange] on well-formed and on malformed headers *)

Module RangeFacts.

Import Fmt Scan ScanFacts.


Lemma doScanf_lit_ok (c : ascii) (f : list fmt_item) (rest : string)
      (acc : list Z) :
  doScanf (FLit c :: f) (String c rest) acc = doScanf f rest acc.
Proof. cbn [doScanf]. rewrite Ascii.eqb_refl. reflexivity. Qed.


Lemma doScanf_verb_ok (v : Z) (f : list fmt_item) (rest : string)
      (acc : list Z) :
  Int64.in_range v = true -> ends_token rest = true ->
  doScanf (FVerbD :: f) (fmt_d v ++ rest) acc = doScanf f rest (acc ++ [v]).
Proof.
  intros Hv Hr. cbn [doScanf]. rewrite scanInt_fmt_d by assumption.
  reflexivity.
Qed.



Lemma plain_or_empty_skip (fuel : nat) (x : string) :
  match x with EmptyString => True | String c _ => plain c end ->
  skip_spaces fuel x = x.
Proof.
  destruct x as [| c r]; intros H.
  - destruct fuel; reflexivity.
  - apply skip_spaces_plain; assumption.
Qed.

(** After the literal ["bytes"] and one space the fields are scanned. *)
Lemma doScanf_bytes_prefix (x : string) :
  match x with EmptyString => True | String c _ => plain c end ->
  doScanf content_range_format ("bytes " ++ x) [] = doScanf fields_format x [].
Proof.
  intros H. unfold content_range_format, lits.
  cbn [list_ascii_of_string map app append].
  rewrite !doScanf_lit_ok. cbn [doScanf].
  change (advance_space (String " " x))
    with (Some (skip_spaces (String.length x) x)).
  rewrite plain_or_empty_skip by assumption. reflexivity.
Qed.

Lemma fmt_d_head (v : Z) (rest : string) :
  Int64.in_range v = true ->
  match (fmt_d v ++ rest)%string with
  | EmptyString => True
  | String c _ => plain c
  end.
Proof.
  intros Hv. apply in_range_bounds in Hv. unfold fmt_d.
  destruct (Z.ltb_spec v 0).
  - cbn. unfold plain. cbn. lia.
  - destruct (fmt_u_spec v) as [_ [_ [c [s' [E Hc]]]]]; [lia |].
    rewrite E. cbn. apply is_digit_plain. assumption.
Qed.


Lemma lit_ends_token (c : ascii) (rest : string) :
  accepted c = false -> ends_token (String c rest) = true.
Proof. intros H. cbn. rewrite H. reflexivity. Qed.

End RangeFacts.

(** What [parseContentRange] makes of a header built by
    [content_range_string] and followed by [rest]. *)
Lemma parseContentRange_formatted (a b n : Z) (rest : string) :
  Int64.in_range a = true -> Int64.in_range b = true ->
  Int64.in_range n = true -> Scan.ends_token rest = true ->
  parseContentRange (Some (content_range_string a b n ++ rest)%string)
  = (a, b, n, true).
Proof.
  intros Ha Hb Hn Hr. unfold parseContentRange, content_range_string.
  rewrite !ScanFacts.append_assoc.
  rewrite RangeFacts.doScanf_bytes_prefix by (apply RangeFacts.fmt_d_head; assumption).
  unfold Scan.fields_format.
  rewrite RangeFacts.doScanf_verb_ok by (assumption || reflexivity).
  cbn [append]. rewrite RangeFacts.doScanf_lit_ok.
  rewrite RangeFacts.doScanf_verb_ok by (assumption || reflexivity).
  cbn [append]. rewrite RangeFacts.doScanf_lit_ok.
  rewrite RangeFacts.doScanf_verb_ok by assumption.
  reflexivity.
Qed.

Lemma parseContentRange_round_trip (a b n : Z) :
  Int64.in_range a = true -> Int64.in_range b = true ->
  Int64.in_range n = true ->
  parseContentRange (Some (content_range_string a b n)) = (a, b, n, true).
Proof.
  intros Ha Hb Hn.
  rewrite <- (ScanFacts.append_nil_r (content_range_string a b n)).
  apply parseContentRange_formatted; (assumption || reflexivity).
Qed.





(** ** The reader over the reference store *)

Lemma firstn_then_more {A : Type} (a b : nat) (l : list A) :
  firstn a l ++ firstn b (skipn a l) = firstn (a + b) l.
Proof.
  revert l. induction a as [| a IH]; intros l; [reflexivity |].
  destruct l as [| x l]; cbn.
  - rewrite firstn_nil. reflexivity.
  - rewrite IH. reflexivity.
Qed.

Lemma firstn_slice (l : list Byte.byte) (d last : Z) :
  0 <= d <= last + 1 ->
  firstn (Z.to_nat d) l ++ Store.slice l d last = firstn (Z.to_nat (last + 1)) l.
Proof.
  intros H. unfold Store.slice. rewrite firstn_then_more.
  f_equal. lia.
Qed.

Section OverStore.

Variable st : Store.store.
Variable key : string.
Variable b : Store.blob.
Variable c : Z.

Hypothesis Hkey : Store.lookup st key = Some b.
Hypothesis Hsize : Store.blob_size b <= 2 ^ 62.

Let n : Z := Store.blob_size b.
Let C : list Byte.byte := Store.content b.

Lemma n_bounds : 0 <= n <= 4611686018427387904.
Proof.
  unfold n, Store.blob_size in *.
  change (2 ^ 62) with 4611686018427387904 in Hsize. lia.
Qed.

Lemma parsePartialResponse_store (d last sz r : Z) (t : time) (cl : bool) :
  0 <= d <= last -> last < n ->
  parsePartialResponse
    (mkObject (firstn (Z.to_nat d) C) c key d sz t r cl)
    (Store.partial b d last)
  = (loaded b c key (last + 1) r, None).
Proof.
  intros Hd Hlast. pose proof n_bounds as Hn.
  unfold parsePartialResponse, io_Copy, Store.partial.
  cbn [body data broken contentRange lastModified set_modTime set_buf buf
       bufLen name dlOffset size modTime rOffset completelyLoaded].
  rewrite parseContentRange_round_trip
    by (apply ScanFacts.in_range_bounds; fold n; lia).
  cbn [negb set_size set_dlOffset set_completelyLoaded buf bufLen name
       dlOffset size modTime rOffset completelyLoaded].
  rewrite add64_id, sub64_id by (fold n; lia).
  unfold loaded. fold n C. rewrite firstn_slice by lia.
  f_equal. f_equal.
  destruct (Z.eqb_spec last (n - 1)), (Z.eqb_spec (last + 1) n);
    first [reflexivity | lia].
Qed.

(** A ranged fetch that meets the object. *)
Lemma fillChunk_store_partial (full : bool) (d sz r : Z) (t : time)
      (cl : bool) (log : list request) :
  1 <= c -> 0 <= d < n ->
  d + c <= 9223372036854775807 ->
  -9223372036854775808 <= sz - 1 <= 9223372036854775807 ->
  let end_ := if full then sz - 1 else d + c - 1 in
  d <= end_ ->
  fillChunk Store.getObject full
            (mkObject (firstn (Z.to_nat d) C) c key d sz t r cl)
            (mkEnv st log)
  = (loaded b c key (Z.min end_ (n - 1) + 1) r,
     mkEnv st (log ++ [(key, d, end_)]), None).
Proof.
  intros Hc Hd Hdc Hsz end_ Hend. pose proof n_bounds as Hn.
  unfold fillChunk.
  cbn [bufLen name dlOffset size].
  destruct (Z.eqb_spec c 0) as [E | _]; [lia |].
  rewrite add64_id, !sub64_id by lia.
  fold end_.
  unfold call_client, Store.getObject. cbn [world calls].
  rewrite Hkey. fold n.
  destruct (Z.ltb_spec d 0); [lia |].
  destruct (Z.ltb_spec end_ d); [lia |].
  destruct (Z.leb_spec n d); [lia |].
  rewrite parsePartialResponse_store by lia. reflexivity.
Qed.

(** A whole-object fetch into a handle that holds nothing yet. *)
Lemma dl_store (r : Z) (log : list request) :
  dl Store.getObject (mkObject [] c key 0 0 0 r false) (mkEnv st log)
  = (mkObject C c key 0 n (Store.mtime b) r true,
     mkEnv st (log ++ [(key, -1, 0)]), None).
Proof.
  unfold dl, call_client, Store.getObject. cbn [world calls name].
  rewrite Hkey. reflexivity.
Qed.

(** Opening with a chunk size of at least one. *)
Lemma OpenWithContext_store :
  1 <= c <= Int64.max_int ->
  exists log,
    OpenWithContext Store.getObject c key (mkEnv st [])
    = (loaded b c key (Z.min c n) 0, mkEnv st log, None).
Proof.
  intros Hc. pose proof n_bounds as Hn.
  unfold Int64.max_int in Hc. change (2 ^ 63) with 9223372036854775808 in Hc.
  unfold OpenWithContext, new_object.
  destruct (Z.eq_dec n 0) as [E0 | Hpos].
  - (* the empty object: range not satisfiable, then the fallback *)
    assert (HC : C = []).
    { unfold n, Store.blob_size in E0. fold C in E0.
      destruct C; [reflexivity | cbn in E0; lia]. }
    unfold fillChunk. cbn [bufLen name dlOffset size].
    destruct (Z.eqb_spec c 0); [lia |].
    rewrite add64_id, sub64_id by lia.
    unfold call_client at 1. unfold Store.getObject at 1.
    cbn [world calls]. rewrite Hkey. fold n. rewrite E0.
    destruct (Z.ltb_spec (0 + c - 1) 0); [lia |].
    cbn [Z.ltb Z.leb Z.compare Z.eqb].
    rewrite dl_store. eexists. f_equal. f_equal.
    unfold loaded. fold n C. rewrite E0, HC.
    replace (Z.min c 0) with 0 by lia. reflexivity.
  - eexists.
    change (@nil Byte.byte) with (firstn (Z.to_nat 0) C).
    rewrite (fillChunk_store_partial false 0 0 0 0 false []) by lia.
    f_equal. f_equal. f_equal. lia.
Qed.

Lemma buf_Len_loaded (d r : Z) : 0 <= d <= n -> buf_Len (loaded b c key d r) = d.
Proof.
  intros H. unfold buf_Len, loaded. cbn [buf]. rewrite length_firstn.
  unfold n, Store.blob_size in H. lia.
Qed.

Lemma copy_out_loaded (k : nat) (d r : Z) :
  0 <= r <= d -> d <= n ->
  let m := Nat.min k (Z.to_nat (d - r)) in
  copy_out k (loaded b c key d r)
  = (loaded b c key d (r + Z.of_nat m),
     ReadOk (firstn m (skipn (Z.to_nat r) C))).
Proof.
  intros Hr Hd m. pose proof n_bounds as Hn.
  unfold copy_out. rewrite buf_Len_loaded by lia.
  cbn [loaded rOffset buf].
  destruct (Z.ltb_spec r 0); [lia |].
  destruct (Z.ltb_spec d r); [lia |]. cbn [orb].
  assert (Hdata : firstn k (skipn (Z.to_nat r) (firstn (Z.to_nat d) (Store.content b)))
                  = firstn m (skipn (Z.to_nat r) C)).
  { replace (Z.to_nat d) with (Z.to_nat r + Z.to_nat (d - r))%nat by lia.
    rewrite <- firstn_skipn_comm, firstn_firstn. reflexivity. }
  rewrite Hdata.
  assert (Hlen : List.length (firstn m (skipn (Z.to_nat r) C)) = m).
  { rewrite length_firstn, length_skipn.
    unfold n, Store.blob_size in Hd. fold C in Hd. lia. }
  rewrite Hlen. rewrite add64_id by lia. reflexivity.
Qed.

(** One [Read] below the end of the object. *)
Lemma Read_store (k : nat) (d r : Z) (log : list request) :
  1 <= c -> 0 <= d <= n -> (d < n -> c <= d) -> 0 <= r < n ->
  exists d' log' m,
    Read Store.getObject k (loaded b c key d r) (mkEnv st log)
    = (loaded b c key d' (r + Z.of_nat m), mkEnv st log',
       ReadOk (firstn m (skipn (Z.to_nat r) C)))
    /\ d <= d' <= n /\ (d' < n -> c <= d')
    /\ r + Z.of_nat m <= d'
    /\ (m <= k)%nat /\ (1 <= k -> 1 <= m)%nat.
Proof.
  intros Hc Hd Hcd Hr. pose proof n_bounds as Hn.
  assert (Hfinish : forall d' log',
             d <= d' <= n -> (d' < n -> c <= d') -> r <= d' ->
             ((1 <= k)%nat -> r < d') ->
             exists d'' log'' m,
               (let (o2, res) := copy_out k (loaded b c key d' r) in
                (o2, mkEnv st log', res))
               = (loaded b c key d'' (r + Z.of_nat m), mkEnv st log'',
                  ReadOk (firstn m (skipn (Z.to_nat r) C)))
               /\ d <= d'' <= n /\ (d'' < n -> c <= d'')
               /\ r + Z.of_nat m <= d''
               /\ (m <= k)%nat /\ (1 <= k -> 1 <= m)%nat).
  { intros d' log' H1 H2 H3 H4.
    exists d', log', (Nat.min k (Z.to_nat (d' - r))).
    rewrite copy_out_loaded by lia.
    repeat split; try lia. }
  unfold Read. cbn [loaded rOffset size dlOffset completelyLoaded].
  fold (loaded b c key d r). fold n.
  destruct (Z.geb_spec r n); [lia |].
  destruct (Z.eqb_spec d n) as [E | Hlt]; cbn [negb].
  - apply Hfinish; lia.
  - destruct (Z.gtb_spec r d).
    + unfold loaded at 1. fold n C.
      rewrite (fillChunk_store_partial true) by lia.
      replace (Z.min (n - 1) (n - 1) + 1) with n by lia.
      apply Hfinish; lia.
    + rewrite buf_Len_loaded by lia.
      rewrite sub64_id by lia.
      destruct (Z.ltb_spec (d - r) (Z.of_nat k)).
      * unfold loaded at 1. fold n C.
        rewrite (fillChunk_store_partial false) by lia.
        apply Hfinish; lia.
      * apply Hfinish; lia.
Qed.

(** Reading on until [io.EOF] collects the rest of the object. *)
Lemma read_to_eof_store (ks : nat -> nat) :
  1 <= c -> (forall i, (1 <= ks i)%nat) ->
  forall (fuel i : nat) (d r : Z) (log : list request),
    0 <= d <= n -> (d < n -> c <= d) -> 0 <= r <= n ->
    n - r < Z.of_nat fuel ->
    exists o' e',
      read_to_eof Store.getObject fuel ks i (loaded b c key d r)
                  (mkEnv st log) (firstn (Z.to_nat r) C)
      = Some (o', e', ReadOk C).
Proof.
  intros Hc Hks. induction fuel as [| f IH]; intros i d r log Hd Hcd Hr Hf.
  - lia.
  - cbn [read_to_eof]. destruct (Z.eq_dec r n) as [E | Hlt].
    + rewrite Read_past_size by (cbn [loaded size rOffset]; fold n; lia).
      do 2 eexists. f_equal. f_equal. f_equal.
      subst r. unfold n, Store.blob_size. fold C.
      rewrite Nat2Z.id. apply firstn_all.
    + destruct (Read_store (ks i) d r log) as
        [d' [log' [m [HR [Hd' [Hcd' [Hrm [_ Hm]]]]]]]]; try lia; try assumption.
      rewrite HR. rewrite firstn_then_more.
      replace (Z.to_nat r + m)%nat with (Z.to_nat (r + Z.of_nat m)) by lia.
      specialize (Hm (Hks i)).
      apply IH; try assumption; lia.
Qed.

Lemma ReadFileWithContext_store :
  exists e',
    ReadFileWithContext Store.getObject c key (mkEnv st []) = (e', inr C).
Proof.
  unfold ReadFileWithContext, new_object. rewrite dl_store. eauto.
Qed.

Lemma Seek_loaded (d r offset whence : Z) :
  0 <= r ->
  exists r' res, Seek (loaded b c key d r) offset whence
                 = (loaded b c key d r', res) /\ 0 <= r'.
Proof.
  intros Hr. unfold Seek.
  destruct (if whence =? SeekStart then Some offset
            else if whence =? SeekCurrent
                 then Some (Int64.add (rOffset (loaded b c key d r)) offset)
                 else if whence =? SeekEnd
                      then Some (Int64.add (size (loaded b c key d r)) offset)
                      else None) as [t |].
  - destruct (Z.ltb_spec t 0).
    + exists r. eexists. split; [reflexivity | assumption].
    + exists t. eexists. split; [reflexivity | assumption].
  - exists r. eexists. split; [reflexivity | assumption].
Qed.

Lemma step_store (a : op) (o : object) (log : list request) :
  1 <= c -> session_state key b c o ->
  exists o' log' out,
    step Store.getObject a o (mkEnv st log) = (o', mkEnv st log', out)
    /\ session_state key b c o'.
Proof.
  intros Hc [d [r [-> [Hd [Hcd Hr]]]]]. destruct a as [k | offset whence | |].
  - cbn [step]. destruct (Z.lt_ge_cases r n) as [Hlt | Hge].
    + destruct (Read_store k d r log) as
        [d' [log' [m [HR [Hd' [Hcd' [Hrm _]]]]]]]; try lia; try assumption.
      rewrite HR. do 3 eexists. split; [reflexivity |].
      exists d', (r + Z.of_nat m). repeat split; try assumption; lia.
    + rewrite Read_past_size by (cbn [loaded size rOffset]; fold n; lia).
      do 3 eexists. split; [reflexivity |].
      exists d, r. repeat split; try assumption; lia.
  - cbn [step].
    destruct (Seek_loaded d r offset whence Hr) as [r' [res [HS Hr']]].
    rewrite HS. do 3 eexists. split; [reflexivity |].
    exists d, r'. repeat split; try assumption; lia.
  - cbn [step]. do 3 eexists. split; [reflexivity |].
    exists d, r. repeat split; try assumption; lia.
  - cbn [step Close]. do 3 eexists. split; [reflexivity |].
    exists d, r. repeat split; try assumption; lia.
Qed.

Lemma run_store (ops : list op) :
  1 <= c ->
  forall (o : object) (log : list request),
    session_state key b c o ->
    exists o' log' outs,
      run Store.getObject ops o (mkEnv st log) = (o', mkEnv st log', outs)
      /\ session_state key b c o'.
Proof.
  intros Hc. induction ops as [| a ops IH]; intros o log Ho.
  - cbn [run]. eauto.
  - cbn [run].
    destruct (step_store a o log Hc Ho) as [o1 [log1 [out [Hs Ho1]]]].
    rewrite Hs.
    destruct (IH o1 log1 Ho1) as [o2 [log2 [outs [Hrun Ho2]]]].
    rewrite Hrun. eauto.
Qed.

Lemma session_state_offsets (o : object) :
  session_state key b c o ->
  dlOffset o = buf_Len o
  /\ (completelyLoaded o = true -> dlOffset o = size o).
Proof.
  intros [d [r [-> [Hd _]]]]. rewrite buf_Len_loaded by assumption.
  cbn [loaded dlOffset completelyLoaded size]. split; [reflexivity |].
  intros H. apply Z.eqb_eq in H. exact H.
Qed.

End OverStore.

(** Once the handle is completely loaded no operation fetches again, and
    the buffer, the size and the download offset stay as they are. *)
Lemma step_when_complete
      (W : Type)
      (getObject : W -> string -> Z -> Z -> W * (client_error + getObjectResponse))
      (a : op) (o : object) (e : env W) :
  completelyLoaded o = true ->
  exists o' out,
    step getObject a o e = (o', e, out)
    /\ completelyLoaded o' = true /\ buf o' = buf o
    /\ size o' = size o /\ dlOffset o' = dlOffset o.
Proof.
  intros Hc. destruct a as [k | offset whence | |]; cbn [step].
  - unfold Read. destruct (rOffset o >=? size o).
    + do 2 eexists. split; [reflexivity |]. auto.
    + rewrite Hc. cbn [negb]. unfold copy_out.
      destruct ((rOffset o <? 0) || (buf_Len o <? rOffset o)).
      * do 2 eexists. split; [reflexivity |]. auto.
      * do 2 eexists. split; [reflexivity |]. cbn. auto.
  - unfold Seek.
    destruct (if whence =? SeekStart then Some offset
              else if whence =? SeekCurrent then Some (Int64.add (rOffset o) offset)
              else if whence =? SeekEnd then Some (Int64.add (size o) offset)
              else None) as [t |].
    + destruct (t <? 0); do 2 eexists; (split; [reflexivity |]); cbn; auto.
    + do 2 eexists. split; [reflexivity |]. auto.
  - do 2 eexists. split; [reflexivity |]. auto.
  - do 2 eexists. split; [reflexivity |]. auto.
Qed.

Lemma run_when_complete
      (W : Type)
      (getObject : W -> string -> Z -> Z -> W * (client_error + getObjectResponse))
      (ops : list op) :
  forall (o : object) (e : env W),
    completelyLoaded o = true ->
    exists o' outs,
      run getObject ops o e = (o', e, outs)
      /\ completelyLoaded o' = true /\ buf o' = buf o
      /\ size o' = size o /\ dlOffset o' = dlOffset o.
Proof.
  induction ops as [| a ops IH]; intros o e Hc; cbn [run].
  - do 2 eexists. split; [reflexivity |]. auto.
  - destruct (step_when_complete W getObject a o e Hc)
      as [o1 [out [Hs [Hc1 [Hb1 [Hs1 Hd1]]]]]].
    rewrite Hs.
    destruct (IH o1 e Hc1) as [o2 [outs [Hr [Hc2 [Hb2 [Hs2 Hd2]]]]]].
    rewrite Hr. do 2 eexists. split; [reflexivity |].
    repeat split; congruence.
Qed.

(** ** Sequential reads and the download offset *)

(** C3. For an object of content [C] held by the store and a chunk size
    [c >= 1], opening the object succeeds, and calling [Read] with
    destinations of any positive lengths until [io.EOF] returns, after at
    most [length C + 1] calls, exactly [C] in concatenation: the bytes a
    single whole-object fetch ([ReadFileWithContext], that is [dl]) returns.
    The object is one a Go slice can hold, at most [2^62] bytes long. *)
Theorem sequential_read_equals_whole_fetch
        (st : Store.store) (key : string) (b : Store.blob) (c : Z)
        (ks : nat -> nat) :
  Store.lookup st key = Some b ->
  Store.blob_size b <= 2 ^ 62 ->
  1 <= c <= Int64.max_int ->
  (forall i, (1 <= ks i)%nat) ->
  exists o e,
    OpenWithContext Store.getObject c key (mkEnv st []) = (o, e, None)
    /\ (forall extra, exists o' e',
           read_to_eof Store.getObject
                       (S (List.length (Store.content b)) + extra) ks 0 o e []
           = Some (o', e', ReadOk (Store.content b)))
    /\ (exists e2,
           ReadFileWithContext Store.getObject c key (mkEnv st [])
           = (e2, inr (Store.content b))).
Proof.
  intros Hkey Hsize Hc Hks.
  destruct (OpenWithContext_store st key b c Hkey Hsize Hc) as [log Hopen].
  pose proof (n_bounds b Hsize) as Hn.
  do 2 eexists. split; [exact Hopen |]. split.
  - intros extra.
    change (@nil Byte.byte) with (firstn (Z.to_nat 0) (Store.content b)).
    apply (read_to_eof_store st key b c Hkey Hsize ks); try lia; try assumption.
    unfold Store.blob_size. lia.
  - apply ReadFileWithContext_store; assumption.
Qed.

Lemma sequential_read_equals_whole_fetch_witness :
  exists o e,
    OpenWithContext Store.getObject 1 "hello.txt" (mkEnv hello_store [])
    = (o, e, None)
    /\ (forall extra, exists o' e',
           read_to_eof Store.getObject (13 + extra) (fun _ => 4%nat) 0 o e []
           = Some (o', e', ReadOk (bytes_of "hello, world")))
    /\ (exists e2,
           ReadFileWithContext Store.getObject 1 "hello.txt" (mkEnv hello_store [])
           = (e2, inr (bytes_of "hello, world"))).
Proof.
  apply (sequential_read_equals_whole_fetch
           hello_store "hello.txt"
           (Store.mkBlob (bytes_of "hello, world") 42) 1 (fun _ => 4%nat)).
  - reflexivity.
  - vm_compute. discriminate.
  - vm_compute. split; discriminate.
  - intros i. lia.
Defined.

(** ** Sessions over a link that may fail *)



Section OverFlaky.

Variable st : Store.store.
Variable key : string.
Variable b : Store.blob.
Variable c : Z.

Hypothesis Hkey : Store.lookup st key = Some b.
Hypothesis Hsize : Store.blob_size b <= 2 ^ 62.

Let n : Z := Store.blob_size b.
Let C : list Byte.byte := Store.content b.










End OverFlaky.





(* ------------------------------------------------------------------ *)
(** * Further properties of the reader *)

(** ** What a fetch may touch, for any store client *)

Lemma same_handle_refl (o : object) : same_handle o o.
Proof.
  unfold same_handle. repeat split. exists []. symmetry. apply app_nil_r.
Qed.

Lemma same_handle_trans (o1 o2 o3 : object) :
  same_handle o1 o2 -> same_handle o2 o3 -> same_handle o1 o3.
Proof.
  intros [Hn1 [Hb1 [x1 Hx1]]] [Hn2 [Hb2 [x2 Hx2]]].
  unfold same_handle. repeat split; try congruence.
  exists (x1 ++ x2). rewrite Hx2, Hx1. symmetry. apply app_assoc.
Qed.

Lemma parseFullResponse_keeps (o o' : object) (rsp : getObjectResponse)
      (r : option error) :
  parseFullResponse o rsp = (o', r) ->
  same_handle o o' /\ rOffset o' = rOffset o.
Proof.
  unfold parseFullResponse, io_Copy.
  destruct (IsZero (modTime o)).
  - destruct (broken (body rsp)); cbn; intros H; inversion H; subst;
      unfold same_handle; cbn; repeat split; eauto.
  - destruct (negb (Equal (modTime o) (lastModified rsp))).
    + intros H; inversion H; subst. split; [apply same_handle_refl | reflexivity].
    + destruct (broken (body rsp)); cbn; intros H; inversion H; subst;
        unfold same_handle; cbn; repeat split; eauto.
Qed.

Lemma parsePartialResponse_keeps (o o' : object) (rsp : getObjectResponse)
      (r : option error) :
  parsePartialResponse o rsp = (o', r) ->
  same_handle o o' /\ rOffset o' = rOffset o.
Proof.
  unfold parsePartialResponse, io_Copy.
  destruct (broken (body rsp)); cbn.
  - intros H; inversion H; subst. unfold same_handle; cbn. repeat split; eauto.
  - destruct (parseContentRange (contentRange rsp)) as [[[s0 e0] t0] ok].
    destruct ok; cbn; intros H; inversion H; subst;
      unfold same_handle; cbn; repeat split; eauto.
Qed.

Section AnyClient.

Variable W : Type.
Variable getObject :
  W -> string -> Z -> Z -> W * (client_error + getObjectResponse).

Lemma dl_keeps (o o' : object) (e e' : env W) (r : option error) :
  dl getObject o e = (o', e', r) ->
  same_handle o o' /\ rOffset o' = rOffset o
  /\ calls e' = calls e ++ [(name o, -1, 0)].
Proof.
  unfold dl, call_client.
  destruct (getObject (world e) (name o) (-1) 0) as [w' [ce | rsp]].
  - intros H; inversion H; subst. cbn.
    split; [apply same_handle_refl |]. split; reflexivity.
  - destruct (parseFullResponse o rsp) as [o1 r1] eqn:Hp.
    intros H; inversion H; subst. cbn.
    destruct (parseFullResponse_keeps _ _ _ _ Hp) as [Hs Hr].
    split; [exact Hs |]. split; [exact Hr | reflexivity].
Qed.

(** One [fillChunk] makes one or two calls, all for the key of the
    handle, and keeps the handle's key, chunk size, read offset and the
    bytes already buffered. *)
Lemma fillChunk_keeps (full : bool) (o o' : object) (e e' : env W)
      (r : option error) :
  fillChunk getObject full o e = (o', e', r) ->
  same_handle o o' /\ rOffset o' = rOffset o
  /\ exists l, calls e' = calls e ++ l
               /\ Forall (fun q => request_key q = name o) l
               /\ (1 <= List.length l <= 2)%nat.
Proof.
  unfold fillChunk. destruct (bufLen o =? 0).
  - intros H. destruct (dl_keeps _ _ _ _ _ H) as [Hs [Hr Hc]].
    split; [assumption |]. split; [assumption |].
    eexists. split; [exact Hc |]. split; [| cbn; lia].
    repeat constructor.
  - unfold call_client at 1.
    destruct (getObject (world e) (name o) (dlOffset o) _) as [w' [ce | rsp]].
    + destruct (dlOffset o =? 0).
      * intros H. destruct (dl_keeps _ _ _ _ _ H) as [Hs [Hr Hc]].
        split; [assumption |]. split; [assumption |].
        cbn [calls] in Hc. rewrite <- app_assoc in Hc.
        eexists. split; [exact Hc |]. split; [| cbn; lia].
        repeat constructor.
      * intros H; inversion H; subst. cbn [calls].
        split; [apply same_handle_refl |]. split; [reflexivity |].
        eexists. split; [reflexivity |]. split; [| cbn; lia].
        repeat constructor.
    + destruct (parsePartialResponse o rsp) as [o1 r1] eqn:Hp.
      intros H; inversion H; subst. cbn [calls].
      destruct (parsePartialResponse_keeps _ _ _ _ Hp) as [Hs Hr].
      split; [assumption |]. split; [assumption |].
      eexists. split; [reflexivity |]. split; [| cbn; lia].
      repeat constructor.
Qed.

Lemma copy_out_keeps (k : nat) (o o' : object) (res : read_result) :
  copy_out k o = (o', res) -> same_handle o o'.
Proof.
  unfold copy_out.
  destruct ((rOffset o <? 0) || (buf_Len o <? rOffset o));
    intros H; inversion H; subst; [apply same_handle_refl |].
  unfold same_handle. cbn. repeat split. exists []. symmetry. apply app_nil_r.
Qed.

Lemma Read_keeps (k : nat) (o o' : object) (e e' : env W) (res : read_result) :
  Read getObject k o e = (o', e', res) ->
  same_handle o o'
  /\ exists l, calls e' = calls e ++ l
               /\ Forall (fun q => request_key q = name o) l
               /\ (List.length l <= 2)%nat.
Proof.
  assert (Hnone : forall o1 e1,
             (let (o2, r2) := copy_out k o1 in (o2, e1, r2)) = (o', e', res) ->
             same_handle o1 o' /\ e' = e1).
  { intros o1 e1. destruct (copy_out k o1) as [o2 r2] eqn:Hc.
    intros H; inversion H; subst. split; [| reflexivity].
    eapply copy_out_keeps; eassumption. }
  assert (Hquiet : forall o1, same_handle o o1 ->
             (let (o2, r2) := copy_out k o1 in (o2, e, r2)) = (o', e', res) ->
             same_handle o o'
             /\ exists l, calls e' = calls e ++ l
                          /\ Forall (fun q => request_key q = name o) l
                          /\ (List.length l <= 2)%nat).
  { intros o1 Hs H. destruct (Hnone _ _ H) as [Hs' ->].
    split; [eapply same_handle_trans; eassumption |].
    exists []. rewrite app_nil_r. repeat split; [constructor | cbn; lia]. }
  assert (Hfetch : forall full,
             match fillChunk getObject full o e with
             | (o1, e1, Some err) => (o1, e1, ReadErr err)
             | (o1, e1, None) => let (o2, r2) := copy_out k o1 in (o2, e1, r2)
             end = (o', e', res) ->
             same_handle o o'
             /\ exists l, calls e' = calls e ++ l
                          /\ Forall (fun q => request_key q = name o) l
                          /\ (List.length l <= 2)%nat).
  { intros full. destruct (fillChunk getObject full o e) as [[o1 e1] r] eqn:Hf.
    destruct (fillChunk_keeps _ _ _ _ _ _ Hf) as [Hs [_ [l [Hl [Hk Hlen]]]]].
    destruct r as [err |].
    - intros H; inversion H; subst. split; [assumption |].
      exists l. repeat split; try assumption; lia.
    - intros H. destruct (Hnone _ _ H) as [Hs' ->].
      split; [eapply same_handle_trans; eassumption |].
      exists l. repeat split; try assumption; lia. }
  unfold Read. destruct (rOffset o >=? size o).
  - intros H; inversion H; subst. split; [apply same_handle_refl |].
    exists []. rewrite app_nil_r. repeat split; [constructor | cbn; lia].
  - destruct (negb (completelyLoaded o)).
    + destruct (rOffset o >? dlOffset o).
      * intros H. apply (Hfetch true).
        destruct (fillChunk getObject true o e) as [[o1 e1] [err |]]; exact H.
      * destruct (Int64.sub (buf_Len o) (rOffset o) <? Z.of_nat k).
        -- intros H. apply (Hfetch false).
           destruct (fillChunk getObject false o e) as [[o1 e1] [err |]]; exact H.
        -- apply Hquiet, same_handle_refl.
    + apply Hquiet, same_handle_refl.
Qed.

Lemma Seek_keeps (o o' : object) (offset whence : Z) (res : error + Z) :
  Seek o offset whence = (o', res) -> same_handle o o'.
Proof.
  unfold Seek.
  destruct (if whence =? SeekStart then Some offset
            else if whence =? SeekCurrent then Some (Int64.add (rOffset o) offset)
            else if whence =? SeekEnd then Some (Int64.add (size o) offset)
            else None) as [t |].
  - destruct (t <? 0); intros H; inversion H; subst;
      [apply same_handle_refl |].
    unfold same_handle. cbn. repeat split. exists []. symmetry. apply app_nil_r.
  - intros H; inversion H; subst. apply same_handle_refl.
Qed.

Lemma step_keeps (a : op) (o o' : object) (e e' : env W) (out : outcome) :
  step getObject a o e = (o', e', out) ->
  same_handle o o'
  /\ exists l, calls e' = calls e ++ l
               /\ Forall (fun q => request_key q = name o) l
               /\ (List.length l <= 2 * count_reads [a])%nat.
Proof.
  assert (Hquiet : forall o1, same_handle o o1 -> e' = e ->
             same_handle o o1
             /\ exists l, calls e' = calls e ++ l
                          /\ Forall (fun q => request_key q = name o) l
                          /\ (List.length l <= 0)%nat).
  { intros o1 Hs ->. split; [assumption |].
    exists []. rewrite app_nil_r. repeat split; [constructor | cbn; lia]. }
  destruct a as [k | offset whence | |]; cbn [step count_reads].
  - destruct (Read getObject k o e) as [[o1 e1] r] eqn:HR.
    intros H; inversion H; subst.
    destruct (Read_keeps _ _ _ _ _ _ HR) as [Hs [l [Hl [Hk Hlen]]]].
    split; [assumption |]. exists l. repeat split; try assumption; lia.
  - destruct (Seek o offset whence) as [o1 r] eqn:HS.
    intros H; inversion H; subst.
    destruct (Hquiet o' (Seek_keeps _ _ _ _ _ HS) eq_refl) as [Hs [l [Hl [Hk Hlen]]]].
    split; [assumption |]. exists l. repeat split; try assumption; lia.
  - intros H; inversion H; subst.
    destruct (Hquiet o' (same_handle_refl _) eq_refl) as [Hs [l [Hl [Hk Hlen]]]].
    split; [assumption |]. exists l. repeat split; try assumption; lia.
  - intros H; inversion H; subst.
    destruct (Hquiet o' (same_handle_refl _) eq_refl) as [Hs [l [Hl [Hk Hlen]]]].
    split; [assumption |]. exists l. repeat split; try assumption; lia.
Qed.

Lemma run_keeps (ops : list op) :
  forall (o o' : object) (e e' : env W) (outs : list outcome),
    run getObject ops o e = (o', e', outs) ->
    same_handle o o'
    /\ exists l, calls e' = calls e ++ l
                 /\ Forall (fun q => request_key q = name o) l
                 /\ (List.length l <= 2 * count_reads ops)%nat.
Proof.
  induction ops as [| a ops IH]; intros o o' e e' outs; cbn [run].
  - intros H; inversion H; subst. split; [apply same_handle_refl |].
    exists []. rewrite app_nil_r. repeat split; [constructor | cbn; lia].
  - destruct (step getObject a o e) as [[o1 e1] out] eqn:Hs.
    destruct (run getObject ops o1 e1) as [[o2 e2] outs2] eqn:Hr.
    intros H; inversion H; subst.
    destruct (step_keeps _ _ _ _ _ _ Hs) as [Hs1 [l1 [Hl1 [Hk1 Hlen1]]]].
    destruct (IH _ _ _ _ _ Hr) as [Hs2 [l2 [Hl2 [Hk2 Hlen2]]]].
    split; [eapply same_handle_trans; eassumption |].
    exists (l1 ++ l2). split; [rewrite Hl2, Hl1; symmetry; apply app_assoc |].
    split.
    + apply Forall_app. split; [assumption |].
      destruct Hs1 as [Hn _]. rewrite Hn in Hk2. assumption.
    + rewrite length_app.
      assert (count_reads (a :: ops) = (count_reads [a] + count_reads ops)%nat)
        by (destruct a; reflexivity).
      lia.
Qed.

End AnyClient.

(** X1. Whatever the store client answers, a session of [Read], [Seek],
    [Stat] and [Close] never changes the key or the chunk size of the
    handle, and only ever appends to its buffer: the bytes buffered before
    stay, in place, in front of the buffer after. *)
Theorem session_keeps_key_and_buffered_bytes
        (W : Type)
        (getObject : W -> string -> Z -> Z -> W * (client_error + getObjectResponse))
        (ops : list op) (o : object) (e : env W) :
  let '(o', _, _) := run getObject ops o e in
  name o' = name o
  /\ bufLen o' = bufLen o
  /\ exists extra, buf o' = buf o ++ extra.
Proof.
  destruct (run getObject ops o e) as [[o' e'] outs] eqn:Hr.
  destruct (run_keeps W getObject ops _ _ _ _ _ Hr) as [Hs _]. exact Hs.
Qed.

(** X2. Whatever the store client answers, every call a session makes is
    for the key of its own handle, calls are only appended to the log, and
    there are at most two of them (the ranged request and the whole-object
    fallback) per [Read]; [Seek], [Stat] and [Close] make none. *)
Theorem session_calls_are_for_own_key
        (W : Type)
        (getObject : W -> string -> Z -> Z -> W * (client_error + getObjectResponse))
        (ops : list op) (o : object) (e : env W) :
  let '(_, e', _) := run getObject ops o e in
  exists l,
    calls e' = calls e ++ l
    /\ Forall (fun q => request_key q = name o) l
    /\ (List.length l <= 2 * count_reads ops)%nat.
Proof.
  destruct (run getObject ops o e) as [[o' e'] outs] eqn:Hr.
  destruct (run_keeps W getObject ops _ _ _ _ _ Hr) as [_ H]. exact H.
Qed.

Section ReadShape.

Variable W : Type.
Variable getObject :
  W -> string -> Z -> Z -> W * (client_error + getObjectResponse).

Lemma copy_out_shape (k : nat) (o o' : object) (copied : list Byte.byte) :
  copy_out k o = (o', ReadOk copied) ->
  copied = firstn k (skipn (Z.to_nat (rOffset o)) (buf o))
  /\ buf o' = buf o
  /\ rOffset o' = Int64.add (rOffset o) (Z.of_nat (List.length copied))
  /\ 0 <= rOffset o <= buf_Len o.
Proof.
  unfold copy_out.
  destruct (Z.ltb_spec (rOffset o) 0); cbn [orb]; [discriminate |].
  destruct (Z.ltb_spec (buf_Len o) (rOffset o)); [discriminate |].
  intros Hcp; inversion Hcp; subst. cbn. repeat split; lia.
Qed.

(** X3. A [Read] that returns bytes returns at most as many as the
    destination holds, takes them from the buffer at the read offset it
    started from, and advances the read offset by exactly their number;
    the read offset it started from was below [size] and inside the
    buffer as it is after the call. *)
Theorem Read_returns_buffered_bytes_at_offset
        (k : nat) (o o' : object) (e e' : env W) (copied : list Byte.byte) :
  Read getObject k o e = (o', e', ReadOk copied) ->
  copied = firstn k (skipn (Z.to_nat (rOffset o)) (buf o'))
  /\ (List.length copied <= k)%nat
  /\ rOffset o' = Int64.add (rOffset o) (Z.of_nat (List.length copied))
  /\ 0 <= rOffset o <= buf_Len o'
  /\ rOffset o < size o.
Proof.
  assert (Hdone : forall o1 e1,
             rOffset o1 = rOffset o ->
             (let (o2, r2) := copy_out k o1 in (o2, e1, r2))
             = (o', e', ReadOk copied) ->
             copied = firstn k (skipn (Z.to_nat (rOffset o)) (buf o'))
             /\ (List.length copied <= k)%nat
             /\ rOffset o' = Int64.add (rOffset o) (Z.of_nat (List.length copied))
             /\ 0 <= rOffset o <= buf_Len o').
  { intros o1 e1 Hr. destruct (copy_out k o1) as [o2 r2] eqn:Hc.
    intros H; inversion H; subst.
    destruct (copy_out_shape _ _ _ _ Hc) as [Hd [Hb [Hro Hin]]].
    unfold buf_Len in *. rewrite Hb, <- Hr.
    repeat split; try assumption; try lia.
    rewrite Hd. rewrite length_firstn. lia. }
  assert (Hfetch : forall full,
             match fillChunk getObject full o e with
             | (o1, e1, Some err) => (o1, e1, ReadErr err)
             | (o1, e1, None) => let (o2, r2) := copy_out k o1 in (o2, e1, r2)
             end = (o', e', ReadOk copied) ->
             copied = firstn k (skipn (Z.to_nat (rOffset o)) (buf o'))
             /\ (List.length copied <= k)%nat
             /\ rOffset o' = Int64.add (rOffset o) (Z.of_nat (List.length copied))
             /\ 0 <= rOffset o <= buf_Len o').
  { intros full. destruct (fillChunk getObject full o e) as [[o1 e1] r] eqn:Hf.
    destruct (fillChunk_keeps _ _ _ _ _ _ _ _ Hf) as [_ [Hr _]].
    destruct r as [err |]; [discriminate |].
    apply Hdone. assumption. }
  unfold Read. destruct (Z.geb_spec (rOffset o) (size o)) as [Hge | Hlt];
    [discriminate |].
  intros HR.
  cut (copied = firstn k (skipn (Z.to_nat (rOffset o)) (buf o'))
       /\ (List.length copied <= k)%nat
       /\ rOffset o' = Int64.add (rOffset o) (Z.of_nat (List.length copied))
       /\ 0 <= rOffset o <= buf_Len o').
  { intros [H1 [H2 [H3 H4]]]. repeat split; try assumption; lia. }
  revert HR. destruct (negb (completelyLoaded o)).
  - destruct (rOffset o >? dlOffset o).
    + intros H. apply (Hfetch true).
      destruct (fillChunk getObject true o e) as [[o1 e1] [err |]]; exact H.
    + destruct (Int64.sub (buf_Len o) (rOffset o) <? Z.of_nat k).
      * intros H. apply (Hfetch false).
        destruct (fillChunk getObject false o e) as [[o1 e1] [err |]]; exact H.
      * apply Hdone. reflexivity.
  - apply Hdone. reflexivity.
Qed.

(** A [Read] served from the buffer alone. *)
Lemma Read_buffered (k : nat) (o : object) (e : env W) :
  rOffset o < size o ->
  0 <= rOffset o <= buf_Len o ->
  buf_Len o <= Int64.max_int ->
  completelyLoaded o = true
  \/ (rOffset o <= dlOffset o /\ Z.of_nat k <= buf_Len o - rOffset o) ->
  let m := Nat.min k (Z.to_nat (buf_Len o - rOffset o)) in
  Read getObject k o e
  = (set_rOffset o (rOffset o + Z.of_nat m), e,
     ReadOk (firstn m (skipn (Z.to_nat (rOffset o)) (buf o)))).
Proof.
  intros Hlt Hin Hmax Hcase m.
  unfold Int64.max_int in Hmax. change (2 ^ 63) with 9223372036854775808 in Hmax.
  assert (Hcopy : (let (o2, r2) := copy_out k o in (o2, e, r2))
                  = (set_rOffset o (rOffset o + Z.of_nat m), e,
                     ReadOk (firstn m (skipn (Z.to_nat (rOffset o)) (buf o))))).
  { unfold copy_out.
    destruct (Z.ltb_spec (rOffset o) 0); [lia |].
    destruct (Z.ltb_spec (buf_Len o) (rOffset o)); [lia |]. cbn [orb].
    assert (Hd : firstn k (skipn (Z.to_nat (rOffset o)) (buf o))
                 = firstn m (skipn (Z.to_nat (rOffset o)) (buf o))).
    { subst m. destruct (Nat.le_gt_cases k (Z.to_nat (buf_Len o - rOffset o))).
      - rewrite Nat.min_l by assumption. reflexivity.
      - rewrite Nat.min_r by lia.
        rewrite !firstn_all2; try reflexivity;
          rewrite length_skipn; unfold buf_Len in *; lia. }
    rewrite Hd.
    assert (Hlen : List.length (firstn m (skipn (Z.to_nat (rOffset o)) (buf o))) = m).
    { rewrite length_firstn, length_skipn. unfold buf_Len in *. lia. }
    rewrite Hlen, add64_id by lia. reflexivity. }
  unfold Read. destruct (Z.geb_spec (rOffset o) (size o)); [lia |].
  destruct Hcase as [Hc | [Hd Hk]].
  - rewrite Hc. cbn [negb]. exact Hcopy.
  - destruct (negb (completelyLoaded o)); [| exact Hcopy].
    destruct (Z.gtb_spec (rOffset o) (dlOffset o)); [lia |].
    rewrite sub64_id by lia.
    destruct (Z.ltb_spec (buf_Len o - rOffset o) (Z.of_nat k)); [lia |].
    exact Hcopy.
Qed.

End ReadShape.

Lemma Read_returns_buffered_bytes_at_offset_witness :
  let o := mkObject (bytes_of "hello") 5 "hello.txt" 5 12 42 1 false in
  let e := mkEnv ([] : Script.script) [] in
  bytes_of "ell" = firstn 3 (skipn (Z.to_nat 1) (bytes_of "hello"))
  /\ (List.length (bytes_of "ell") <= 3)%nat
  /\ 4 = Int64.add 1 (Z.of_nat (List.length (bytes_of "ell")))
  /\ 0 <= 1 <= 5
  /\ 1 < 12.
Proof.
  intros o e.
  apply (Read_returns_buffered_bytes_at_offset
           Script.script Script.getObject 3%nat o (set_rOffset o 4) e e
           (bytes_of "ell")).
  vm_compute. reflexivity.
Defined.

(** X4. A [Read] whose bytes are already buffered makes no call: when the
    handle is complete, or when the read offset is not ahead of the
    download offset and the destination is no longer than what is buffered
    from the read offset on, [Read] leaves the store and the call log as
    they were, returns the buffered bytes (as many as fit) and only moves
    the read offset. *)
Theorem Read_of_buffered_bytes_makes_no_call
        (W : Type)
        (getObject : W -> string -> Z -> Z -> W * (client_error + getObjectResponse))
        (k : nat) (o : object) (e : env W) :
  rOffset o < size o ->
  0 <= rOffset o <= buf_Len o ->
  buf_Len o <= Int64.max_int ->
  completelyLoaded o = true
  \/ (rOffset o <= dlOffset o /\ Z.of_nat k <= buf_Len o - rOffset o) ->
  let m := Nat.min k (Z.to_nat (buf_Len o - rOffset o)) in
  Read getObject k o e
  = (set_rOffset o (rOffset o + Z.of_nat m), e,
     ReadOk (firstn m (skipn (Z.to_nat (rOffset o)) (buf o)))).
Proof. apply Read_buffered. Qed.

Lemma Read_of_buffered_bytes_makes_no_call_witness :
  let o := mkObject (bytes_of "hello") 5 "hello.txt" 5 12 42 1 false in
  let e := mkEnv ([inl NotFound] : Script.script) [] in
  Read Script.getObject 3 o e = (set_rOffset o 4, e, ReadOk (bytes_of "ell")).
Proof.
  intros o e.
  apply (Read_of_buffered_bytes_makes_no_call
           Script.script Script.getObject 3%nat o e).
  - vm_compute. reflexivity.
  - vm_compute. split; discriminate.
  - vm_compute. discriminate.
  - right. vm_compute. split; discriminate.
Defined.

(** X5. Once a handle is completely loaded it never calls the store
    again: any session of [Read], [Seek], [Stat] and [Close] leaves the
    store and the call log exactly as they were, and the handle stays
    complete with the same buffer and size. *)
Theorem complete_handle_never_fetches
        (W : Type)
        (getObject : W -> string -> Z -> Z -> W * (client_error + getObjectResponse))
        (ops : list op) (o : object) (e : env W) :
  completelyLoaded o = true ->
  let '(o', e', _) := run getObject ops o e in
  e' = e
  /\ completelyLoaded o' = true
  /\ buf o' = buf o
  /\ size o' = size o.
Proof.
  intros Hc.
  destruct (run_when_complete W getObject ops o e Hc)
    as [o' [outs [Hr [Hc' [Hb [Hs _]]]]]].
  rewrite Hr. repeat split; assumption.
Qed.

Lemma complete_handle_never_fetches_witness :
  let o := mkObject (bytes_of "hello") 0 "k" 0 5 42 0 true in
  let e := mkEnv ([inl NotFound] : Script.script) [("k", -1, 0)] in
  let '(o', e', _) :=
    run Script.getObject [OpRead 2; OpSeek 9 SeekStart; OpRead 2;
                          OpSeek (-1) SeekEnd; OpRead 2] o e in
  e' = e /\ completelyLoaded o' = true /\ buf o' = buf o /\ size o' = size o.
Proof.
  intros o e.
  apply (complete_handle_never_fetches
           Script.script Script.getObject
           [OpRead 2; OpSeek 9 SeekStart; OpRead 2; OpSeek (-1) SeekEnd; OpRead 2]
           o e).
  reflexivity.
Defined.

Section ReadAllComplete.

Variable W : Type.
Variable getObject :
  W -> string -> Z -> Z -> W * (client_error + getObjectResponse).
Variable ks : nat -> nat.
Hypothesis Hks : forall i, (1 <= ks i)%nat.

Lemma read_to_eof_complete (e : env W) :
  forall (fuel i : nat) (o : object) (acc : list Byte.byte),
    completelyLoaded o = true ->
    size o = buf_Len o ->
    0 <= rOffset o ->
    buf_Len o <= Int64.max_int ->
    (1 <= fuel)%nat ->
    size o - rOffset o < Z.of_nat fuel ->
    exists o',
      read_to_eof getObject fuel ks i o e acc
      = Some (o', e, ReadOk (acc ++ skipn (Z.to_nat (rOffset o)) (buf o)))
      /\ buf o' = buf o.
Proof.
  induction fuel as [| f IH]; intros i o acc Hc Hsz Hr Hmax Hf1 Hf.
  - lia.
  - cbn [read_to_eof]. destruct (Z.lt_ge_cases (rOffset o) (size o)) as [Hlt | Hge].
    + rewrite Read_buffered; try assumption; try lia; [| left; assumption].
      set (m := Nat.min (ks i) (Z.to_nat (buf_Len o - rOffset o))).
      assert (Hm : (1 <= m)%nat) by (subst m; specialize (Hks i); lia).
      assert (Hm' : Z.of_nat m <= buf_Len o - rOffset o) by (subst m; lia).
      destruct (IH (S i) (set_rOffset o (rOffset o + Z.of_nat m))
                   (acc ++ firstn m (skipn (Z.to_nat (rOffset o)) (buf o))))
        as [o' [HR Hb]]; cbn [completelyLoaded size rOffset set_rOffset];
        try assumption; try lia.
      exists o'. split; [| exact Hb]. rewrite HR. cbn [buf set_rOffset].
      f_equal. f_equal. f_equal. rewrite <- app_assoc. f_equal.
      cbn [rOffset set_rOffset].
      replace (Z.to_nat (rOffset o + Z.of_nat m))
        with (m + Z.to_nat (rOffset o))%nat by lia.
      rewrite <- skipn_skipn. apply firstn_skipn.
    + rewrite Read_past_size by lia.
      exists o. split; [| reflexivity].
      rewrite skipn_all2 by (unfold buf_Len in *; lia).
      rewrite app_nil_r. reflexivity.
Qed.

End ReadAllComplete.

(** X6. Reading a complete handle to the end returns exactly the buffered
    bytes from the read offset on (none when the offset is past the end),
    within [size - rOffset + 1] calls of [Read] (one call past the end), and without a single call
    to the store, whatever lengths the destinations have as long as they
    are positive. *)
Theorem reading_complete_handle_to_eof
        (W : Type)
        (getObject : W -> string -> Z -> Z -> W * (client_error + getObjectResponse))
        (ks : nat -> nat) (o : object) (e : env W) (fuel : nat) :
  (forall i, (1 <= ks i)%nat) ->
  completelyLoaded o = true ->
  size o = buf_Len o ->
  0 <= rOffset o ->
  buf_Len o <= Int64.max_int ->
  (1 <= fuel)%nat ->
  size o - rOffset o < Z.of_nat fuel ->
  exists o',
    read_to_eof getObject fuel ks 0 o e []
    = Some (o', e, ReadOk (skipn (Z.to_nat (rOffset o)) (buf o))).
Proof.
  intros Hks Hc Hsz Hr Hmax Hf1 Hf.
  destruct (read_to_eof_complete W getObject ks Hks e fuel 0%nat o []
              Hc Hsz Hr Hmax Hf1 Hf) as [o' [H _]].
  exists o'. exact H.
Qed.

Lemma reading_complete_handle_to_eof_witness :
  let o := mkObject (bytes_of "hello") 0 "k" 0 5 42 2 true in
  let e := mkEnv ([inl NotFound] : Script.script) [("k", -1, 0)] in
  exists o',
    read_to_eof Script.getObject 4 (fun _ => 2%nat) 0 o e []
    = Some (o', e, ReadOk (bytes_of "llo")).
Proof.
  intros o e.
  apply (reading_complete_handle_to_eof
           Script.script Script.getObject (fun _ => 2%nat) o e 4%nat).
  - intros i. lia.
  - reflexivity.
  - reflexivity.
  - vm_compute. discriminate.
  - vm_compute. discriminate.
  - lia.
  - vm_compute. reflexivity.
Defined.

(** ** More on sessions over the reference store *)

Lemma firstn_min_length {A : Type} (k : nat) (l : list A) :
  firstn (Nat.min k (List.length l)) l = firstn k l.
Proof.
  destruct (Nat.le_gt_cases k (List.length l)).
  - rewrite Nat.min_l by assumption. reflexivity.
  - rewrite Nat.min_r by lia. rewrite firstn_all, firstn_all2 by lia.
    reflexivity.
Qed.

Lemma step_when_complete_modTime
      (W : Type)
      (getObject : W -> string -> Z -> Z -> W * (client_error + getObjectResponse))
      (a : op) (o : object) (e : env W) :
  completelyLoaded o = true ->
  modTime (fst (fst (step getObject a o e))) = modTime o
  /\ completelyLoaded (fst (fst (step getObject a o e))) = true.
Proof.
  intros Hc. destruct a as [k | offset whence | |]; cbn [step].
  - unfold Read. destruct (rOffset o >=? size o); [cbn; auto |].
    rewrite Hc. cbn [negb]. unfold copy_out.
    destruct ((rOffset o <? 0) || (buf_Len o <? rOffset o)); cbn; auto.
  - unfold Seek.
    destruct (if whence =? SeekStart then Some offset
              else if whence =? SeekCurrent then Some (Int64.add (rOffset o) offset)
              else if whence =? SeekEnd then Some (Int64.add (size o) offset)
              else None) as [t |]; [| cbn; auto].
    destruct (t <? 0); cbn; auto.
  - cbn. auto.
  - cbn. auto.
Qed.

Lemma run_when_complete_modTime
      (W : Type)
      (getObject : W -> string -> Z -> Z -> W * (client_error + getObjectResponse))
      (ops : list op) :
  forall (o : object) (e : env W),
    completelyLoaded o = true ->
    modTime (fst (fst (run getObject ops o e))) = modTime o.
Proof.
  induction ops as [| a ops IH]; intros o e Hc; cbn [run]; [reflexivity |].
  destruct (step_when_complete_modTime W getObject a o e Hc) as [Hm Hc1].
  destruct (step getObject a o e) as [[o1 e1] out]. cbn [fst] in Hm, Hc1.
  specialize (IH o1 e1 Hc1).
  destruct (run getObject ops o1 e1) as [[o2 e2] outs]. cbn [fst] in *.
  congruence.
Qed.

Section OverStoreMore.

Variable st : Store.store.
Variable key : string.
Variable b : Store.blob.
Variable c : Z.

Hypothesis Hkey : Store.lookup st key = Some b.
Hypothesis Hsize : Store.blob_size b <= 2 ^ 62.
Hypothesis Hc : 1 <= c <= Int64.max_int.

Lemma c_bounds : 1 <= c <= 9223372036854775807.
Proof.
  unfold Int64.max_int in Hc. change (2 ^ 63) with 9223372036854775808 in Hc.
  lia.
Qed.

Lemma read_to_eof_store_from (ks : nat -> nat) :
  (forall i, (1 <= ks i)%nat) ->
  forall (fuel i : nat) (d r : Z) (log : list request) (acc : list Byte.byte),
    0 <= d <= Store.blob_size b -> (d < Store.blob_size b -> c <= d) ->
    0 <= r -> (1 <= fuel)%nat ->
    Store.blob_size b - r < Z.of_nat fuel ->
    exists o' e',
      read_to_eof Store.getObject fuel ks i (loaded b c key d r)
                  (mkEnv st log) acc
      = Some (o', e', ReadOk (acc ++ skipn (Z.to_nat r) (Store.content b))).
Proof.
  intros Hks. pose proof c_bounds as Hcb.
  induction fuel as [| f IH]; intros i d r log acc Hd Hcd Hr Hf1 Hf; [lia |].
  cbn [read_to_eof].
  destruct (Z.lt_ge_cases r (Store.blob_size b)) as [Hlt | Hge].
  - destruct (Read_store st key b c Hkey Hsize (ks i) d r log) as
      [d' [log' [m [HR [Hd' [Hcd' [Hrm [_ Hm]]]]]]]]; try lia; try assumption.
    rewrite HR. specialize (Hm (Hks i)).
    destruct (IH (S i) d' (r + Z.of_nat m) log'
                 (acc ++ firstn m (skipn (Z.to_nat r) (Store.content b))))
      as [o' [e' HI]]; try assumption; try lia.
    exists o', e'. rewrite HI. f_equal. f_equal. f_equal.
    rewrite <- app_assoc. f_equal.
    replace (Z.to_nat (r + Z.of_nat m)) with (m + Z.to_nat r)%nat by lia.
    rewrite <- skipn_skipn. apply firstn_skipn.
  - rewrite Read_past_size by (cbn [loaded size rOffset]; lia).
    do 2 eexists. rewrite skipn_all2 by (unfold Store.blob_size in Hge; lia).
    rewrite app_nil_r. reflexivity.
Qed.

(** Opening a non-empty object makes the one ranged request for the
    first chunk. *)
Lemma OpenWithContext_store_nonempty :
  1 <= Store.blob_size b ->
  OpenWithContext Store.getObject c key (mkEnv st [])
  = (loaded b c key (Z.min c (Store.blob_size b)) 0,
     mkEnv st [(key, 0, c - 1)], None).
Proof.
  intros Hn. pose proof c_bounds as Hcb. pose proof (n_bounds b Hsize) as Hnb.
  unfold OpenWithContext, new_object.
  change (@nil Byte.byte) with (firstn (Z.to_nat 0) (Store.content b)).
  rewrite (fillChunk_store_partial st key b c Hkey Hsize false 0 0 0 0 false [])
    by lia.
  cbn [app]. replace (0 + c - 1) with (c - 1) by lia.
  f_equal. f_equal. f_equal. lia.
Qed.

(** A [Read] after a seek ahead of the download offset. *)
Lemma Read_store_seek_ahead (k : nat) (d r : Z) (log : list request) :
  0 <= d -> c <= d -> d < r < Store.blob_size b ->
  Read Store.getObject k (loaded b c key d r) (mkEnv st log)
  = (loaded b c key (Store.blob_size b)
            (r + Z.of_nat (Nat.min k (Z.to_nat (Store.blob_size b - r)))),
     mkEnv st (log ++ [(key, d, Store.blob_size b - 1)]),
     ReadOk (firstn k (skipn (Z.to_nat r) (Store.content b)))).
Proof.
  intros Hd Hcd Hr. pose proof c_bounds as Hcb.
  pose proof (n_bounds b Hsize) as Hnb.
  unfold Read. cbn [loaded rOffset size dlOffset completelyLoaded].
  destruct (Z.geb_spec r (Store.blob_size b)); [lia |].
  destruct (Z.eqb_spec d (Store.blob_size b)); [lia |]. cbn [negb].
  destruct (Z.gtb_spec r d); [| lia].
  fold (loaded b c key d r). unfold loaded at 1.
  rewrite (fillChunk_store_partial st key b c Hkey Hsize true) by lia.
  replace (Z.min (Store.blob_size b - 1) (Store.blob_size b - 1) + 1)
    with (Store.blob_size b) by lia.
  rewrite (copy_out_loaded key b c Hsize) by lia.
  f_equal. f_equal.
  replace (Z.to_nat (Store.blob_size b - r))
    with (List.length (skipn (Z.to_nat r) (Store.content b)))
    by (rewrite length_skipn; unfold Store.blob_size; lia).
  apply firstn_min_length.
Qed.

(** A [Read] that finds too little buffered at its offset. *)
Lemma Read_store_next_chunk (k : nat) (d r : Z) (log : list request) :
  0 <= r <= d -> c <= d -> d < Store.blob_size b -> d - r < Z.of_nat k ->
  let d' := Z.min (d + c) (Store.blob_size b) in
  let m := Nat.min k (Z.to_nat (d' - r)) in
  Read Store.getObject k (loaded b c key d r) (mkEnv st log)
  = (loaded b c key d' (r + Z.of_nat m),
     mkEnv st (log ++ [(key, d, d + c - 1)]),
     ReadOk (firstn m (skipn (Z.to_nat r) (Store.content b)))).
Proof.
  intros Hr Hcd Hd Hk d' m. pose proof c_bounds as Hcb.
  pose proof (n_bounds b Hsize) as Hnb.
  unfold Read. cbn [loaded rOffset size dlOffset completelyLoaded].
  destruct (Z.geb_spec r (Store.blob_size b)); [lia |].
  destruct (Z.eqb_spec d (Store.blob_size b)); [lia |]. cbn [negb].
  destruct (Z.gtb_spec r d); [lia |].
  fold (loaded b c key d r). rewrite buf_Len_loaded by lia.
  rewrite sub64_id by lia.
  destruct (Z.ltb_spec (d - r) (Z.of_nat k)); [| lia].
  unfold loaded at 1.
  rewrite (fillChunk_store_partial st key b c Hkey Hsize false) by lia.
  replace (Z.min (d + c - 1) (Store.blob_size b - 1) + 1) with d'
    by (subst d'; lia).
  rewrite (copy_out_loaded key b c Hsize) by (subst d'; lia).
  reflexivity.
Qed.

End OverStoreMore.

Lemma reading_complete_handle_to_eof_aux
      (st : Store.store) (key : string) (b : Store.blob)
      (ks : nat -> nat) (fuel : nat) :
  Store.blob_size b <= Int64.max_int ->
  (forall i, (1 <= ks i)%nat) ->
  Store.blob_size b < Z.of_nat fuel ->
  exists o',
    read_to_eof Store.getObject fuel ks 0
                (mkObject (Store.content b) 0 key 0 (Store.blob_size b)
                          (Store.mtime b) 0 true)
                (mkEnv st [(key, -1, 0)]) []
    = Some (o', mkEnv st [(key, -1, 0)], ReadOk (Store.content b)).
Proof.
  intros Hmax Hks Hfuel.
  destruct (read_to_eof_complete _ Store.getObject ks Hks
              (mkEnv st [(key, -1, 0)]) fuel 0%nat
              (mkObject (Store.content b) 0 key 0 (Store.blob_size b)
                        (Store.mtime b) 0 true) [])
    as [o' [H _]]; cbn [completelyLoaded size rOffset buf];
    try reflexivity; try assumption; try lia.
  - unfold Store.blob_size in *. lia.
  - exists o'. exact H.
Qed.

(** X7. With chunk size 0 the open is one whole-object request, and
    reading the handle to the end then returns the whole content without
    any further request: the session makes exactly one call in total. *)
Theorem chunk_size_zero_reads_with_one_call
        (st : Store.store) (key : string) (b : Store.blob)
        (ks : nat -> nat) (fuel : nat) :
  Store.lookup st key = Some b ->
  Store.blob_size b <= Int64.max_int ->
  (forall i, (1 <= ks i)%nat) ->
  Store.blob_size b < Z.of_nat fuel ->
  exists o o',
    OpenWithContext Store.getObject 0 key (mkEnv st [])
    = (o, mkEnv st [(key, -1, 0)], None)
    /\ read_to_eof Store.getObject fuel ks 0 o (mkEnv st [(key, -1, 0)]) []
       = Some (o', mkEnv st [(key, -1, 0)], ReadOk (Store.content b)).
Proof.
  intros Hkey Hmax Hks Hfuel.
  assert (Hopen : OpenWithContext Store.getObject 0 key (mkEnv st [])
                  = (mkObject (Store.content b) 0 key 0 (Store.blob_size b)
                              (Store.mtime b) 0 true,
                     mkEnv st [(key, -1, 0)], None)).
  { unfold OpenWithContext, new_object, fillChunk. cbn [bufLen Z.eqb].
    rewrite (dl_store st key b 0 Hkey). reflexivity. }
  destruct (reading_complete_handle_to_eof_aux st key b ks fuel Hmax Hks Hfuel)
    as [o' H].
  do 2 eexists. split; [exact Hopen | exact H].
Qed.

Lemma chunk_size_zero_reads_with_one_call_witness :
  exists o o',
    OpenWithContext Store.getObject 0 "hello.txt" (mkEnv hello_store [])
    = (o, mkEnv hello_store [("hello.txt", -1, 0)], None)
    /\ read_to_eof Store.getObject 13 (fun _ => 5%nat) 0 o
                   (mkEnv hello_store [("hello.txt", -1, 0)]) []
       = Some (o', mkEnv hello_store [("hello.txt", -1, 0)],
               ReadOk (bytes_of "hello, world")).
Proof.
  apply (chunk_size_zero_reads_with_one_call
           hello_store "hello.txt"
           (Store.mkBlob (bytes_of "hello, world") 42) (fun _ => 5%nat) 13%nat).
  - reflexivity.
  - vm_compute. discriminate.
  - intros i. lia.
  - vm_compute. reflexivity.
Defined.

(** X8. Seek and read: after opening an object of content [C] with a
    chunk size of at least one, [Seek(k, io.SeekStart)] for any [k >= 0]
    succeeds and returns [k], and reading on to [io.EOF] returns exactly
    [C[k:]], the content without its first [k] bytes; nothing at all when
    [k] is at or past the end. *)
Theorem seek_then_read_returns_suffix
        (st : Store.store) (key : string) (b : Store.blob) (c : Z)
        (ks : nat -> nat) (k : Z) :
  Store.lookup st key = Some b ->
  Store.blob_size b <= 2 ^ 62 ->
  1 <= c <= Int64.max_int ->
  (forall i, (1 <= ks i)%nat) ->
  0 <= k ->
  exists o e o1,
    OpenWithContext Store.getObject c key (mkEnv st []) = (o, e, None)
    /\ Seek o k SeekStart = (o1, inr k)
    /\ (forall extra, exists o' e',
           read_to_eof Store.getObject
                       (S (List.length (Store.content b)) + extra) ks 0 o1 e []
           = Some (o', e', ReadOk (skipn (Z.to_nat k) (Store.content b)))).
Proof.
  intros Hkey Hsize Hc Hks Hk.
  destruct (OpenWithContext_store st key b c Hkey Hsize Hc) as [log Hopen].
  pose proof (n_bounds b Hsize) as Hn.
  pose proof (c_bounds c Hc) as Hcb.
  exists (loaded b c key (Z.min c (Store.blob_size b)) 0), (mkEnv st log),
    (loaded b c key (Z.min c (Store.blob_size b)) k).
  split; [exact Hopen |]. split.
  - unfold Seek. cbn [SeekStart Z.eqb].
    destruct (Z.ltb_spec k 0); [lia | reflexivity].
  - intros extra.
    apply (read_to_eof_store_from st key b c Hkey Hsize Hc ks Hks
             (S (List.length (Store.content b)) + extra) 0
             (Z.min c (Store.blob_size b)) k log []); try lia.
    unfold Store.blob_size. lia.
Qed.

Lemma seek_then_read_returns_suffix_witness :
  exists o e o1,
    OpenWithContext Store.getObject 1 "hello.txt" (mkEnv hello_store [])
    = (o, e, None)
    /\ Seek o 7 SeekStart = (o1, inr 7)
    /\ (forall extra, exists o' e',
           read_to_eof Store.getObject (13 + extra) (fun _ => 512%nat) 0 o1 e []
           = Some (o', e', ReadOk (bytes_of "world"))).
Proof.
  apply (seek_then_read_returns_suffix
           hello_store "hello.txt"
           (Store.mkBlob (bytes_of "hello, world") 42) 1 (fun _ => 512%nat) 7).
  - reflexivity.
  - vm_compute. discriminate.
  - vm_compute. split; discriminate.
  - intros i. lia.
  - lia.
Defined.

(** X9. A forward seek is resolved by one request for everything that is
    missing.  After opening an object of [n] bytes with chunk size [c],
    [1 <= c < n], a [Read] at an offset [k] with [c < k < n] makes exactly
    one more call, for the bytes from the download offset [c] to [n - 1]
    (not from [k]), completes the handle with the whole content buffered,
    and returns [C[k : k + j]] for a destination of length [j]. *)
Theorem read_after_forward_seek_fetches_remainder_once
        (st : Store.store) (key : string) (b : Store.blob) (c k : Z) (j : nat) :
  Store.lookup st key = Some b ->
  Store.blob_size b <= 2 ^ 62 ->
  1 <= c ->
  c < k < Store.blob_size b ->
  exists o o',
    OpenWithContext Store.getObject c key (mkEnv st [])
    = (o, mkEnv st [(key, 0, c - 1)], None)
    /\ Read Store.getObject j (set_rOffset o k) (mkEnv st [(key, 0, c - 1)])
       = (o', mkEnv st [(key, 0, c - 1); (key, c, Store.blob_size b - 1)],
          ReadOk (firstn j (skipn (Z.to_nat k) (Store.content b))))
    /\ completelyLoaded o' = true
    /\ buf o' = Store.content b.
Proof.
  intros Hkey Hsize Hc1 Hk.
  pose proof (n_bounds b Hsize) as Hn.
  assert (Hc : 1 <= c <= Int64.max_int).
  { unfold Int64.max_int. change (2 ^ 63) with 9223372036854775808. lia. }
  do 2 eexists. split.
  - apply (OpenWithContext_store_nonempty st key b c Hkey Hsize Hc). lia.
  - replace (Z.min c (Store.blob_size b)) with c by lia.
    change (set_rOffset (loaded b c key c 0) k) with (loaded b c key c k).
    rewrite (Read_store_seek_ahead st key b c Hkey Hsize Hc j c k) by lia.
    split; [reflexivity |]. split.
    + cbn [loaded completelyLoaded]. apply Z.eqb_refl.
    + cbn [loaded buf]. unfold Store.blob_size. rewrite Nat2Z.id.
      apply firstn_all.
Qed.

Lemma read_after_forward_seek_fetches_remainder_once_witness :
  exists o o',
    OpenWithContext Store.getObject 1 "hello.txt" (mkEnv hello_store [])
    = (o, mkEnv hello_store [("hello.txt", 0, 1 - 1)], None)
    /\ Read Store.getObject 3 (set_rOffset o 7)
            (mkEnv hello_store [("hello.txt", 0, 1 - 1)])
       = (o', mkEnv hello_store [("hello.txt", 0, 1 - 1); ("hello.txt", 1, 12 - 1)],
          ReadOk (firstn 3 (skipn (Z.to_nat 7) (bytes_of "hello, world"))))
    /\ completelyLoaded o' = true
    /\ buf o' = bytes_of "hello, world".
Proof.
  apply (read_after_forward_seek_fetches_remainder_once
           hello_store "hello.txt"
           (Store.mkBlob (bytes_of "hello, world") 42) 1 7 3%nat).
  - reflexivity.
  - vm_compute. discriminate.
  - lia.
  - vm_compute. split; reflexivity.
Defined.

(** X10. A [Read] never fetches twice.  Right after opening an object of
    [n] bytes with chunk size [c], [1 <= c < n], a [Read] into a
    destination longer than [c] makes exactly one more call, for the next
    chunk [[c, 2c - 1]], and returns what is buffered then, the first
    [min (2c, n)] bytes of the content at most, however long the
    destination is. *)
Theorem read_fetches_one_chunk_and_returns_short
        (st : Store.store) (key : string) (b : Store.blob) (c : Z) (j : nat) :
  Store.lookup st key = Some b ->
  Store.blob_size b <= 2 ^ 62 ->
  1 <= c < Store.blob_size b ->
  c < Z.of_nat j ->
  let d' := Z.min (c + c) (Store.blob_size b) in
  let m := Nat.min j (Z.to_nat d') in
  exists o o',
    OpenWithContext Store.getObject c key (mkEnv st [])
    = (o, mkEnv st [(key, 0, c - 1)], None)
    /\ Read Store.getObject j o (mkEnv st [(key, 0, c - 1)])
       = (o', mkEnv st [(key, 0, c - 1); (key, c, c + c - 1)],
          ReadOk (firstn m (Store.content b)))
    /\ dlOffset o' = d'
    /\ rOffset o' = Z.of_nat m.
Proof.
  intros Hkey Hsize Hc1 Hj d' m.
  pose proof (n_bounds b Hsize) as Hn.
  assert (Hc : 1 <= c <= Int64.max_int).
  { unfold Int64.max_int. change (2 ^ 63) with 9223372036854775808. lia. }
  do 2 eexists. split.
  - apply (OpenWithContext_store_nonempty st key b c Hkey Hsize Hc). lia.
  - replace (Z.min c (Store.blob_size b)) with c by lia.
    rewrite (Read_store_next_chunk st key b c Hkey Hsize Hc j c 0) by lia.
    replace (Z.min (c + c) (Store.blob_size b) - 0) with d' by (subst d'; lia).
    fold d'. fold m. cbn [skipn Z.to_nat app].
    split; [reflexivity |]. split; reflexivity.
Qed.

Lemma read_fetches_one_chunk_and_returns_short_witness :
  exists o o',
    OpenWithContext Store.getObject 2 "hello.txt" (mkEnv hello_store [])
    = (o, mkEnv hello_store [("hello.txt", 0, 2 - 1)], None)
    /\ Read Store.getObject 512 o (mkEnv hello_store [("hello.txt", 0, 2 - 1)])
       = (o', mkEnv hello_store [("hello.txt", 0, 2 - 1); ("hello.txt", 2, 2 + 2 - 1)],
          ReadOk (firstn (Nat.min 512 (Z.to_nat (Z.min (2 + 2) 12)))
                         (bytes_of "hello, world")))
    /\ dlOffset o' = Z.min (2 + 2) 12
    /\ rOffset o' = Z.of_nat (Nat.min 512 (Z.to_nat (Z.min (2 + 2) 12))).
Proof.
  apply (read_fetches_one_chunk_and_returns_short
           hello_store "hello.txt"
           (Store.mkBlob (bytes_of "hello, world") 42) 2 512%nat).
  - reflexivity.
  - vm_compute. discriminate.
  - vm_compute. split; [discriminate | reflexivity].
  - vm_compute. reflexivity.
Defined.

(** X11. A zero-length object opens without error although the store
    rejects the byte range: with a chunk size of at least one the open
    makes the ranged request, gets range-not-satisfiable, and falls back to
    one whole-object request; the handle is then complete, [Stat] reports
    size 0 and the store's last-modified, and every [Read] reports
    [io.EOF] without calling the store. *)
Theorem empty_object_opens_by_fallback
        (st : Store.store) (key : string) (b : Store.blob) (c : Z) :
  Store.lookup st key = Some b ->
  Store.content b = [] ->
  1 <= c <= Int64.max_int ->
  exists o,
    OpenWithContext Store.getObject c key (mkEnv st [])
    = (o, mkEnv st [(key, 0, c - 1); (key, -1, 0)], None)
    /\ Stat o = (mkFileInfo key 0 ModePerm (Store.mtime b) false, None)
    /\ completelyLoaded o = true
    /\ (forall k e, Read Store.getObject k o e = (o, e, ReadErr EOF)).
Proof.
  intros Hkey Hempty Hc. pose proof (c_bounds c Hc) as Hcb.
  assert (Hn : Store.blob_size b = 0) by (unfold Store.blob_size; rewrite Hempty; reflexivity).
  exists (mkObject [] c key 0 0 (Store.mtime b) 0 true). split.
  - unfold OpenWithContext, new_object, fillChunk.
    cbn [bufLen name dlOffset size].
    destruct (Z.eqb_spec c 0); [lia |].
    rewrite add64_id, sub64_id by lia.
    unfold call_client at 1. unfold Store.getObject at 1.
    cbn [world calls]. rewrite Hkey, Hn.
    destruct (Z.ltb_spec (0 + c - 1) 0); [lia |].
    cbn [Z.ltb Z.leb Z.compare Z.eqb].
    rewrite (dl_store st key b c Hkey). rewrite Hempty, Hn.
    replace (0 + c - 1) with (c - 1) by lia. reflexivity.
  - split; [reflexivity |]. split; [reflexivity |].
    intros k e. apply Read_past_size. cbn. lia.
Qed.

Lemma empty_object_opens_by_fallback_witness :
  let st : Store.store := [("empty", Store.mkBlob [] 9)] in
  exists o,
    OpenWithContext Store.getObject 4 "empty" (mkEnv st [])
    = (o, mkEnv st [("empty", 0, 4 - 1); ("empty", -1, 0)], None)
    /\ Stat o = (mkFileInfo "empty" 0 ModePerm 9 false, None)
    /\ completelyLoaded o = true
    /\ (forall k e, Read Store.getObject k o e = (o, e, ReadErr EOF)).
Proof.
  intros st.
  apply (empty_object_opens_by_fallback st "empty" (Store.mkBlob [] 9) 4).
  - reflexivity.
  - reflexivity.
  - vm_compute. split; discriminate.
Defined.

(** X12. When the store client answers every call with the error [err],
    [OpenWithContext] returns that error with a handle that holds nothing
    (the handle as [new_object] built it), after one call for chunk size 0
    and otherwise after two, the ranged request and the whole-object
    fallback; [ReadFileWithContext] returns the error after its single
    whole-object call. *)
Theorem open_and_readfile_report_client_error
        (W : Type)
        (getObject : W -> string -> Z -> Z -> W * (client_error + getObjectResponse))
        (err : client_error) (c : Z) (key : string) (e : env W) :
  (forall w k a z, snd (getObject w k a z) = inl err) ->
  (exists e',
      OpenWithContext getObject c key e
      = (new_object c key, e', Some (ErrClient err))
      /\ calls e'
         = calls e ++ (if c =? 0 then [(key, -1, 0)]
                       else [(key, 0, Int64.sub (Int64.add 0 c) 1); (key, -1, 0)]))
  /\ (exists e',
         ReadFileWithContext getObject c key e = (e', inl (ErrClient err))
         /\ calls e' = calls e ++ [(key, -1, 0)]).
Proof.
  intros Herr.
  assert (Hdl : forall e0, exists e',
               dl getObject (new_object c key) e0
               = (new_object c key, e', Some (ErrClient err))
               /\ calls e' = calls e0 ++ [(key, -1, 0)]).
  { intros e0. unfold dl, call_client. cbn [name new_object].
    pose proof (Herr (world e0) key (-1) 0) as H.
    destruct (getObject (world e0) key (-1) 0) as [w' r]. cbn [snd] in H.
    subst r. eexists. split; reflexivity. }
  split.
  - unfold OpenWithContext, fillChunk. cbn [bufLen name dlOffset size new_object].
    destruct (c =? 0).
    + apply Hdl.
    + unfold call_client at 1.
      pose proof (Herr (world e) key 0 (Int64.sub (Int64.add 0 c) 1)) as H.
      destruct (getObject (world e) key 0 (Int64.sub (Int64.add 0 c) 1))
        as [w' r]. cbn [snd] in H. subst r. cbn [Z.eqb].
      destruct (Hdl (mkEnv w' (calls e ++ [(key, 0, Int64.sub (Int64.add 0 c) 1)])))
        as [e' [H1 H2]].
      exists e'. split; [exact H1 |]. rewrite H2. cbn [calls].
      rewrite <- app_assoc. reflexivity.
  - unfold ReadFileWithContext. destruct (Hdl e) as [e' [H1 H2]].
    rewrite H1. exists e'. split; [reflexivity | exact H2].
Qed.

Lemma open_and_readfile_report_client_error_witness :
  let down := fun (w : unit) (_ : string) (_ _ : Z) =>
                (w, inl (Transport 503) : client_error + getObjectResponse) in
  let e := mkEnv tt [] in
  (exists e',
      OpenWithContext down 1 "k" e
      = (new_object 1 "k", e', Some (ErrClient (Transport 503)))
      /\ calls e'
         = calls e ++ (if 1 =? 0 then [("k", -1, 0)]
                       else [("k", 0, Int64.sub (Int64.add 0 1) 1); ("k", -1, 0)]))
  /\ (exists e',
         ReadFileWithContext down 1 "k" e = (e', inl (ErrClient (Transport 503)))
         /\ calls e' = calls e ++ [("k", -1, 0)]).
Proof.
  intros down e.
  apply (open_and_readfile_report_client_error
           unit down (Transport 503) 1 "k" e).
  intros w k a z. reflexivity.
Defined.

(** X13. After a successful open over the store, [Stat] reports the key
    as name, the length of the object as size, the store's last-modified,
    mode [fs.ModePerm] and no directory, for chunk size 0 as for any chunk
    size of at least one; and it reports the same after any session of
    [Read], [Seek], [Stat] and [Close]. *)
Theorem stat_reports_the_stored_object
        (st : Store.store) (key : string) (b : Store.blob) (c : Z)
        (ops : list op) :
  Store.lookup st key = Some b ->
  Store.blob_size b <= 2 ^ 62 ->
  0 <= c <= Int64.max_int ->
  let info := (mkFileInfo key (Store.blob_size b) ModePerm (Store.mtime b) false,
               @None error) in
  exists o e,
    OpenWithContext Store.getObject c key (mkEnv st []) = (o, e, None)
    /\ Stat o = info
    /\ Stat (fst (fst (run Store.getObject ops o e))) = info.
Proof.
  intros Hkey Hsize Hc info. pose proof (n_bounds b Hsize) as Hn.
  destruct (Z.eq_dec c 0) as [E0 | Hne].
  - subst c.
    assert (Hopen : OpenWithContext Store.getObject 0 key (mkEnv st [])
                    = (mkObject (Store.content b) 0 key 0 (Store.blob_size b)
                                (Store.mtime b) 0 true,
                       mkEnv st ([] ++ [(key, -1, 0)]), None)).
    { unfold OpenWithContext, new_object, fillChunk. cbn [bufLen Z.eqb].
      apply dl_store. assumption. }
    do 2 eexists. split; [exact Hopen |]. split; [reflexivity |].
    set (o := mkObject (Store.content b) 0 key 0 (Store.blob_size b)
                       (Store.mtime b) 0 true).
    set (e := mkEnv st ([] ++ [(key, -1, 0)])).
    pose proof (run_when_complete_modTime _ Store.getObject ops o e eq_refl) as Hm.
    destruct (run_when_complete _ Store.getObject ops o e eq_refl)
      as [o' [outs [Hrun [_ [_ [Hsz _]]]]]].
    pose proof (run_keeps _ Store.getObject ops o o' e e outs Hrun) as [[Hname _] _].
    rewrite Hrun in *. cbn [fst] in *. unfold Stat, info.
    rewrite Hname, Hsz, Hm. reflexivity.
  - assert (Hc1 : 1 <= c <= Int64.max_int) by lia.
    destruct (OpenWithContext_store st key b c Hkey Hsize Hc1) as [log Hopen].
    assert (Hstate : session_state key b c
                       (loaded b c key (Z.min c (Store.blob_size b)) 0)).
    { do 2 eexists. split; [reflexivity |]. lia. }
    destruct (run_store st key b c Hkey Hsize ops (proj1 Hc1) _ log Hstate)
      as [o' [log' [outs [Hrun [d [r [Ho' _]]]]]]].
    do 2 eexists. split; [exact Hopen |]. split; [reflexivity |].
    rewrite Hrun. cbn [fst]. subst o'. reflexivity.
Qed.

Lemma stat_reports_the_stored_object_witness :
  let info := (mkFileInfo "hello.txt" 12 ModePerm 42 false, @None error) in
  exists o e,
    OpenWithContext Store.getObject 3 "hello.txt" (mkEnv hello_store [])
    = (o, e, None)
    /\ Stat o = info
    /\ Stat (fst (fst (run Store.getObject
                           [OpRead 2; OpSeek 9 SeekStart; OpRead 8] o e))) = info.
Proof.
  apply (stat_reports_the_stored_object
           hello_store "hello.txt"
           (Store.mkBlob (bytes_of "hello, world") 42) 3
           [OpRead 2; OpSeek 9 SeekStart; OpRead 8]).
  - reflexivity.
  - vm_compute. discriminate.
  - vm_compute. split; discriminate.
Defined.

Lemma set_rOffset_same (o : object) : set_rOffset o (rOffset o) = o.
Proof. destruct o; reflexivity. Qed.

(** X14. How [Seek] calls compose.  A seek to [k >= 0] from the start
    followed by a relative seek by [j] is the seek to [k + j] from the
    start, as long as [k + j] is a non-negative 64-bit value; a relative
    seek by 0 on a handle whose read offset is not negative changes nothing
    and returns the read offset; and a [whence] other than 0, 1 and 2 is an
    error that leaves the handle as it was. *)
Theorem Seek_composition (o : object) (k j whence : Z) :
  (0 <= k -> 0 <= k + j <= Int64.max_int ->
   Seek (fst (Seek o k SeekStart)) j SeekCurrent
   = Seek o (k + j) SeekStart)
  /\ (0 <= rOffset o <= Int64.max_int ->
      Seek o 0 SeekCurrent = (o, inr (rOffset o)))
  /\ (whence <> SeekStart -> whence <> SeekCurrent -> whence <> SeekEnd ->
      Seek o k whence = (o, inl ErrSeekWhence)).
Proof.
  unfold Int64.max_int. change (2 ^ 63) with 9223372036854775808.
  split; [| split].
  - intros Hk Hkj. unfold Seek at 2. cbn [SeekStart Z.eqb].
    destruct (Z.ltb_spec k 0); [lia |]. cbn [fst].
    unfold Seek. cbn [SeekStart SeekCurrent Z.eqb Pos.eqb rOffset set_rOffset].
    rewrite add64_id by lia.
    destruct (Z.ltb_spec (k + j) 0); [lia |]. reflexivity.
  - intros Hr. unfold Seek. cbn [SeekStart SeekCurrent Z.eqb Pos.eqb].
    rewrite add64_id by lia. replace (rOffset o + 0) with (rOffset o) by lia.
    destruct (Z.ltb_spec (rOffset o) 0); [lia |].
    rewrite set_rOffset_same. reflexivity.
  - intros H0 H1 H2. unfold Seek.
    destruct (Z.eqb_spec whence SeekStart); [contradiction |].
    destruct (Z.eqb_spec whence SeekCurrent); [contradiction |].
    destruct (Z.eqb_spec whence SeekEnd); [contradiction |].
    reflexivity.
Qed.

Lemma Seek_composition_witness :
  Seek (fst (Seek after_first_chunk 5 SeekStart)) (-2) SeekCurrent
  = Seek after_first_chunk (5 + -2) SeekStart
  /\ Seek after_first_chunk 0 SeekCurrent
     = (after_first_chunk, inr (rOffset after_first_chunk))
  /\ Seek after_first_chunk 5 3 = (after_first_chunk, inl ErrSeekWhence).
Proof.
  pose proof (Seek_composition after_first_chunk 5 (-2) 3) as [H1 [H2 H3]].
  split; [| split].
  - apply H1; [lia | vm_compute; split; discriminate].
  - apply H2. vm_compute. split; discriminate.
  - apply H3; discriminate.
Defined.

(** ** Numbers out of [parseContentRange] *)

Lemma scanInt_in_range (s rest : string) (v : Z) :
  Scan.scanInt s = Some (v, rest) -> Int64.in_range v = true.
Proof.
  unfold Scan.scanInt. destruct (Scan.SkipSpace s) as [s1 |]; [| discriminate].
  destruct (match s1 with
            | String c r => if Scan.is_sign c then (Fmt.code c =? 45, r) else (false, s1)
            | EmptyString => (false, s1)
            end) as [neg s2].
  destruct (Scan.span_accepted s2) as [tok rest'].
  unfold Scan.ParseInt. destruct tok as [| c0 tok0]; [discriminate |].
  destruct (Scan.parse_uint_acc 0 (String c0 tok0)) as [un |]; [| discriminate].
  destruct (Int64.in_range (if neg then - un else un)) eqn:Hr; [| discriminate].
  intros H; inversion H; subst. exact Hr.
Qed.

Lemma doScanf_in_range (format : list Scan.fmt_item) :
  forall (input : string) (acc : list Z),
    Forall (fun v => Int64.in_range v = true) acc ->
    Forall (fun v => Int64.in_range v = true)
           (fst (Scan.doScanf format input acc)).
Proof.
  induction format as [| it f IH]; intros input acc Hacc; cbn [Scan.doScanf].
  - exact Hacc.
  - destruct it as [c | |].
    + destruct input as [| c' rest]; [exact Hacc |].
      destruct (Ascii.eqb c c'); [apply IH; exact Hacc | exact Hacc].
    + destruct (Scan.advance_space input); [apply IH; exact Hacc | exact Hacc].
    + destruct (Scan.scanInt input) as [[v rest] |] eqn:Hs; [| exact Hacc].
      apply IH. apply Forall_app. split; [exact Hacc |].
      constructor; [| constructor]. eapply scanInt_in_range. exact Hs.
Qed.

Lemma nth_in_range (i : nat) (vals : list Z) :
  Forall (fun v => Int64.in_range v = true) vals ->
  Int64.in_range (nth i vals 0) = true.
Proof.
  intros H. revert i. induction H as [| v vals Hv _ IH]; intros i.
  - destruct i; reflexivity.
  - destruct i; [exact Hv | apply IH].
Qed.

(** The three numbers [parseContentRange] returns are 64-bit values, with
    [ok] true or false. *)
Lemma parseContentRange_returns_int64 (s : option string) :
  let '(start, end_, total, _) := parseContentRange s in
  Int64.in_range start = true
  /\ Int64.in_range end_ = true
  /\ Int64.in_range total = true.
Proof.
  unfold parseContentRange. destruct s as [str |]; [| repeat split; reflexivity].
  pose proof (doScanf_in_range content_range_format str [] (Forall_nil _)) as H.
  destruct (Scan.doScanf content_range_format str []) as [vals noerr].
  cbn [fst] in H.
  destruct noerr; repeat split; apply nth_in_range; exact H.
Qed.

(** The decimal form of any magnitude below [10^20], twenty digits at
    most, is a non-empty digit string that [ParseUint] reads back. *)
Lemma fmt_u_spec_wide (m : Z) :
  0 <= m < 10 ^ 20 ->
  Scan.all_digits (Fmt.fmt_u m) = true
  /\ Scan.parse_uint_acc 0 (Fmt.fmt_u m) = Some m
  /\ exists ch s', Fmt.fmt_u m = String ch s' /\ Scan.is_digit ch = true.
Proof.
  intros Hm. unfold Fmt.fmt_u.
  assert (Hall : Scan.all_digits (Fmt.fmt_u_aux 20 m "") = true)
    by (apply ScanFacts.all_digits_fmt_u_aux; [lia | reflexivity]).
  split; [exact Hall |]. split.
  - destruct (ScanFacts.parse_fmt_u_aux 20 m "") as [p Hp].
    { change (Z.of_nat 20) with 20. lia. }
    rewrite Hp. cbn [Scan.parse_uint_acc]. f_equal; lia.
  - destruct (ScanFacts.fmt_u_aux_S_nonempty 19 m "") as [ch [s' E]].
    exists ch, s'. split; [exact E |].
    rewrite E in Hall. cbn in Hall. apply andb_true_iff in Hall. tauto.
Qed.

(** A numeral above the largest [int64] is not scanned. *)
Lemma scanInt_overflow (m : Z) (rest : string) :
  Int64.max_int < m < 10 ^ 20 ->
  Scan.ends_token rest = true ->
  Scan.scanInt (Fmt.fmt_u m ++ rest) = None.
Proof.
  intros Hm Hrest.
  assert (Hmax : 9223372036854775807 < m).
  { unfold Int64.max_int in Hm. change (2 ^ 63) with 9223372036854775808 in Hm.
    lia. }
  destruct (fmt_u_spec_wide m) as [Hall [Hparse [ch [s' [E Hch]]]]]; [lia |].
  unfold Scan.scanInt. rewrite E. cbn [append].
  rewrite ScanFacts.SkipSpace_plain by (apply ScanFacts.is_digit_plain; assumption).
  rewrite (ScanFacts.is_digit_not_sign ch Hch).
  change (String ch (s' ++ rest)%string) with (String ch s' ++ rest)%string.
  rewrite <- E.
  rewrite ScanFacts.span_accepted_digits by assumption.
  unfold Scan.ParseInt. rewrite E. rewrite <- E. rewrite Hparse.
  destruct (Int64.in_range m) eqn:Hr; [| reflexivity].
  apply ScanFacts.in_range_bounds in Hr. lia.
Qed.

Lemma fmt_u_head (m : Z) (rest : string) :
  0 <= m < 10 ^ 20 ->
  match (Fmt.fmt_u m ++ rest)%string with
  | EmptyString => True
  | String ch _ => Scan.plain ch
  end.
Proof.
  intros Hm. destruct (fmt_u_spec_wide m Hm) as [_ [_ [ch [s' [E Hch]]]]].
  rewrite E. cbn. apply ScanFacts.is_digit_plain. assumption.
Qed.

(** X15. A field of the header whose value is above the largest [int64]
    makes [parseContentRange] report [ok = false]: for every numeral of up
    to twenty digits above [2^63 - 1], in the place of the total, of the
    end or of the start, the field and those after it are left at 0 and
    the fields scanned before it are kept.  The value is never wrapped
    around or cut to 64 bits. *)
Theorem parseContentRange_rejects_overflow (a b n : Z) (rest : string) :
  Int64.in_range a = true -> Int64.in_range b = true ->
  Int64.max_int < n < 10 ^ 20 ->
  Scan.ends_token rest = true ->
  parseContentRange
    (Some ("bytes " ++ Fmt.fmt_d a ++ "-" ++ Fmt.fmt_d b ++ "/"
                    ++ Fmt.fmt_u n ++ rest)%string)
  = (a, b, 0, false)
  /\ parseContentRange
       (Some ("bytes " ++ Fmt.fmt_d a ++ "-" ++ Fmt.fmt_u n ++ rest)%string)
     = (a, 0, 0, false)
  /\ parseContentRange (Some ("bytes " ++ Fmt.fmt_u n ++ rest)%string)
     = (0, 0, 0, false).
Proof.
  intros Ha Hb Hn Hrest.
  assert (Hn0 : 0 <= n < 10 ^ 20).
  { unfold Int64.max_int in Hn. change (2 ^ 63) with 9223372036854775808 in Hn.
    lia. }
  split; [| split]; unfold parseContentRange.
  - rewrite RangeFacts.doScanf_bytes_prefix
      by (apply RangeFacts.fmt_d_head; assumption).
    unfold Scan.fields_format.
    rewrite RangeFacts.doScanf_verb_ok by (assumption || reflexivity).
    cbn [append]. rewrite RangeFacts.doScanf_lit_ok.
    rewrite RangeFacts.doScanf_verb_ok by (assumption || reflexivity).
    cbn [append]. rewrite RangeFacts.doScanf_lit_ok.
    cbn [Scan.doScanf]. rewrite scanInt_overflow by assumption. reflexivity.
  - rewrite RangeFacts.doScanf_bytes_prefix
      by (apply RangeFacts.fmt_d_head; assumption).
    unfold Scan.fields_format.
    rewrite RangeFacts.doScanf_verb_ok by (assumption || reflexivity).
    cbn [append]. rewrite RangeFacts.doScanf_lit_ok.
    cbn [Scan.doScanf]. rewrite scanInt_overflow by assumption. reflexivity.
  - rewrite RangeFacts.doScanf_bytes_prefix by (apply fmt_u_head; assumption).
    unfold Scan.fields_format.
    cbn [Scan.doScanf]. rewrite scanInt_overflow by assumption. reflexivity.
Qed.

Lemma parseContentRange_rejects_overflow_witness :
  parseContentRange (Some "bytes 0-99/9223372036854775808") = (0, 99, 0, false)
  /\ parseContentRange (Some "bytes 0-9223372036854775808 and more")
     = (0, 0, 0, false)
  /\ parseContentRange (Some "bytes 18446744073709551616") = (0, 0, 0, false).
Proof.
  split; [| split].
  - apply (parseContentRange_rejects_overflow 0 99 9223372036854775808 "");
      try reflexivity. vm_compute. split; reflexivity.
  - apply (parseContentRange_rejects_overflow 0 0 9223372036854775808 " and more");
      try reflexivity. vm_compute. split; reflexivity.
  - apply (parseContentRange_rejects_overflow 0 0 18446744073709551616 "");
      try reflexivity. vm_compute. split; reflexivity.
Defined.

(* ------------------------------------------------------------------ *)
(** * The adapters and the facade *)

(** ** What every call of the client preserves, a session preserves *)

Section EnvInvariant.

Variable W : Type.
Variable getObject :
  W -> string -> Z -> Z -> W * (client_error + getObjectResponse).
Variable P : env W -> Prop.

Hypothesis Hcall :
  forall e key offset count,
    P e -> P (fst (call_client getObject e key offset count)).

Lemma dl_preserves (o : object) (e : env W) :
  P e -> P (snd (fst (dl getObject o e))).
Proof.
  intros HP. unfold dl.
  pose proof (Hcall e (name o) (-1) 0 HP) as H.
  destruct (call_client getObject e (name o) (-1) 0) as [e1 [ce | rsp]];
    cbn [fst snd] in *; [exact H |].
  destruct (parseFullResponse o rsp). exact H.
Qed.

Lemma fillChunk_preserves (full : bool) (o : object) (e : env W) :
  P e -> P (snd (fst (fillChunk getObject full o e))).
Proof.
  intros HP. unfold fillChunk. destruct (bufLen o =? 0).
  - apply dl_preserves. exact HP.
  - match goal with
    | |- context [call_client getObject e ?k ?a ?z] =>
        pose proof (Hcall e k a z HP) as H;
        destruct (call_client getObject e k a z) as [e1 [ce | rsp]]
    end; cbn [fst snd] in *.
    + destruct (dlOffset o =? 0); [apply dl_preserves; exact H | exact H].
    + destruct (parsePartialResponse o rsp). exact H.
Qed.

Lemma Read_preserves (k : nat) (o : object) (e : env W) :
  P e -> P (snd (fst (Read getObject k o e))).
Proof.
  intros HP. unfold Read. destruct (rOffset o >=? size o); [exact HP |].
  assert (Hquiet : P (snd (fst (let (o2, res) := copy_out k o in (o2, e, res))))).
  { destruct (copy_out k o). exact HP. }
  assert (Hfetch : forall full,
             P (snd (fst (let '(o1, e1, r) := fillChunk getObject full o e in
                          match r with
                          | Some err => (o1, e1, ReadErr err)
                          | None => let (o2, res) := copy_out k o1 in (o2, e1, res)
                          end)))).
  { intros full. pose proof (fillChunk_preserves full o e HP) as H.
    destruct (fillChunk getObject full o e) as [[o1 e1] [err |]];
      cbn [fst snd] in *; [exact H |].
    destruct (copy_out k o1). exact H. }
  destruct (negb (completelyLoaded o)); [| exact Hquiet].
  destruct (rOffset o >? dlOffset o); [apply Hfetch |].
  destruct (Int64.sub (buf_Len o) (rOffset o) <? Z.of_nat k);
    [apply Hfetch | exact Hquiet].
Qed.

Lemma run_preserves (ops : list op) :
  forall (o : object) (e : env W),
    P e -> P (snd (fst (run getObject ops o e))).
Proof.
  induction ops as [| a ops IH]; intros o e HP; cbn [run]; [exact HP |].
  assert (Hs : P (snd (fst (step getObject a o e)))).
  { destruct a as [k | offset whence | |]; cbn [step].
    - pose proof (Read_preserves k o e HP) as H.
      destruct (Read getObject k o e) as [[o1 e1] r]. exact H.
    - destruct (Seek o offset whence). exact HP.
    - exact HP.
    - exact HP. }
  destruct (step getObject a o e) as [[o1 e1] out]. cbn [fst snd] in Hs.
  specialize (IH o1 e1 Hs).
  destruct (run getObject ops o1 e1) as [[o2 e2] outs]. exact IH.
Qed.

End EnvInvariant.

Lemma s3_call_recorded (bucket : string)
      (e : env (Sdk.world Adapters.GetObjectInput))
      (key : string) (offset count : Z) :
  Sdk.seen (world e) = map (Sdk.s3_input_of bucket) (calls e) ->
  let e' := fst (call_client (Adapters.s3Client_getObject _ Sdk.call bucket)
                             e key offset count) in
  Sdk.seen (world e') = map (Sdk.s3_input_of bucket) (calls e').
Proof.
  intros H. unfold call_client, Adapters.s3Client_getObject, Sdk.call.
  destruct (Sdk.answers (world e)) as [| [ce | rsp] rest];
    cbn [fst world calls Sdk.seen]; rewrite map_app, H; reflexivity.
Qed.

Lemma blob_call_recorded (container : string)
      (e : env (Sdk.world Adapters.DownloadStreamInput))
      (key : string) (offset count : Z) :
  Sdk.seen (world e) = map (Sdk.blob_input_of container) (calls e) ->
  let e' := fst (call_client (Adapters.blobClient_getObject _ Sdk.call container)
                             e key offset count) in
  Sdk.seen (world e') = map (Sdk.blob_input_of container) (calls e').
Proof.
  intros H. unfold call_client, Adapters.blobClient_getObject, Sdk.call.
  destruct (Sdk.answers (world e)) as [| [ce | rsp] rest];
    cbn [fst world calls Sdk.seen]; rewrite map_app, H; reflexivity.
Qed.

(** ** [New] and the first request of a filesystem it returns *)

Lemma prefix_app (p y : string) : prefix p (p ++ y) = true.
Proof.
  induction p as [| ch p IH]; cbn.
  - destruct y; reflexivity.
  - destruct (ascii_dec ch ch); [exact IH | congruence].
Qed.

Lemma Contains_prefix (s sub : string) :
  prefix sub s = true -> Facade.Contains s sub = true.
Proof. intros H. destruct s; cbn [Facade.Contains]; rewrite H; reflexivity. Qed.

Lemma Contains_app (x sub y : string) :
  Facade.Contains (x ++ sub ++ y) sub = true.
Proof.
  induction x as [| ch x IH].
  - change ("" ++ sub ++ y)%string with (sub ++ y)%string.
    apply Contains_prefix, prefix_app.
  - cbn [append Facade.Contains]. rewrite IH. apply orb_true_r.
Qed.

Section FirstCall.

Variable W : Type.
Variable getObject :
  W -> string -> Z -> Z -> W * (client_error + getObjectResponse).

(** The first call of [fillChunk]: the whole object for chunk size 0,
    otherwise the range from the download offset. *)
Lemma fillChunk_first_call (full : bool) (o : object) (e : env W) :
  let q := if bufLen o =? 0 then (name o, -1, 0)
           else (name o, dlOffset o,
                 if full then Int64.sub (size o) 1
                 else Int64.sub (Int64.add (dlOffset o) (bufLen o)) 1) in
  exists rest,
    calls (snd (fst (fillChunk getObject full o e))) = calls e ++ q :: rest.
Proof.
  intros q. subst q. unfold fillChunk. destruct (bufLen o =? 0).
  - destruct (dl getObject o e) as [[o1 e1] r] eqn:Hd.
    destruct (dl_keeps _ _ _ _ _ _ _ Hd) as [_ [_ Hc]].
    exists []. exact Hc.
  - unfold call_client at 1.
    destruct (getObject (world e) (name o) (dlOffset o) _) as [w' [ce | rsp]].
    + destruct (dlOffset o =? 0).
      * match goal with
        | |- context [dl getObject o ?e0] =>
            destruct (dl getObject o e0) as [[o1 e1] r] eqn:Hd
        end.
        destruct (dl_keeps _ _ _ _ _ _ _ Hd) as [_ [_ Hc]].
        cbn [calls] in Hc. eexists. cbn [fst snd]. rewrite Hc.
        rewrite <- app_assoc. reflexivity.
      * exists []. reflexivity.
    + destruct (parsePartialResponse o rsp). exists []. reflexivity.
Qed.

End FirstCall.

(** X17. Which filesystem [New] returns.  For an endpoint that does not
    contain ["blob.core"], [New] cannot fail: it returns the S3 filesystem
    with the options applied in order, the region being ["us-east-1"] when
    no non-empty region was given.  For an endpoint that contains
    ["blob.core"] anywhere, [New] never returns an S3 filesystem; it
    returns a blob filesystem only when a bucket option was given, with
    that container and the configured buffer size, and otherwise ends in
    an error of the SDK or in the nil dereference of the missing bucket. *)
Theorem New_chooses_backend_by_endpoint
        (cred_ok : string -> string -> bool) (shared_ok anon_ok : string -> bool)
        (options : list Facade.Option) :
  let fs0 := fold_left (fun fs op => op fs) options Facade.zero in
  let result := Facade.New cred_ok shared_ok anon_ok options in
  (Facade.Contains (Facade.a_endpoint fs0) "blob.core" = false ->
   exists fs,
     result = Facade.NewS3 fs
     /\ Facade.a_region fs
        = (if String.eqb (Facade.a_region fs0) "" then "us-east-1"
           else Facade.a_region fs0)
     /\ Facade.a_bucket fs = Facade.a_bucket fs0
     /\ Facade.a_bufLen fs = Facade.a_bufLen fs0
     /\ Facade.a_endpoint fs = Facade.a_endpoint fs0)
  /\ (Facade.Contains (Facade.a_endpoint fs0) "blob.core" = true ->
      (forall fs, result <> Facade.NewS3 fs)
      /\ (Facade.a_bucket fs0 = None ->
          result = Facade.NewError \/ result = Facade.NewPanic)
      /\ (forall container, Facade.a_bucket fs0 = Some container ->
            result = Facade.NewError
            \/ result = Facade.NewBlob
                          (Facade.mkAzBlobFs container (Facade.a_bufLen fs0))))
  /\ (forall x y, Facade.Contains (x ++ "blob.core" ++ y) "blob.core" = true).
Proof.
  intros fs0 result. subst result. unfold Facade.New. fold fs0.
  set (fs := if String.eqb (Facade.a_region fs0) ""
             then Facade.WithRegion "us-east-1" fs0 else fs0).
  assert (He : Facade.a_endpoint fs = Facade.a_endpoint fs0)
    by (subst fs; destruct (String.eqb (Facade.a_region fs0) ""); reflexivity).
  assert (Hb : Facade.a_bucket fs = Facade.a_bucket fs0)
    by (subst fs; destruct (String.eqb (Facade.a_region fs0) ""); reflexivity).
  assert (Hl : Facade.a_bufLen fs = Facade.a_bufLen fs0)
    by (subst fs; destruct (String.eqb (Facade.a_region fs0) ""); reflexivity).
  assert (Hr : Facade.a_region fs
               = (if String.eqb (Facade.a_region fs0) "" then "us-east-1"
                  else Facade.a_region fs0))
    by (subst fs; destruct (String.eqb (Facade.a_region fs0) ""); reflexivity).
  rewrite He. split; [| split].
  - intros Hc. rewrite Hc. exists fs. repeat split; assumption.
  - intros Hc. rewrite Hc. unfold Facade.blob_fs. rewrite Hb, Hl.
    split; [| split].
    + intros fs1.
      destruct (negb (String.eqb (Facade.a_sk fs) ""));
        [destruct (cred_ok _ _); [destruct (shared_ok _) |]
        | destruct (anon_ok _)];
        try discriminate; destruct (Facade.a_bucket fs0); discriminate.
    + intros Hnone. rewrite Hnone.
      destruct (negb (String.eqb (Facade.a_sk fs) ""));
        [destruct (cred_ok _ _); [destruct (shared_ok _) |]
        | destruct (anon_ok _)]; auto.
    + intros container Hsome. rewrite Hsome.
      destruct (negb (String.eqb (Facade.a_sk fs) ""));
        [destruct (cred_ok _ _); [destruct (shared_ok _) |]
        | destruct (anon_ok _)]; auto.
  - intros x y. apply Contains_app.
Qed.

Lemma New_chooses_backend_by_endpoint_witness :
  let ok2 := fun _ _ : string => true in
  let ok1 := fun _ : string => true in
  (exists fs,
      Facade.New ok2 ok1 ok1
                 [Facade.WithEndpoint "https://s3.us-west-2.amazonaws.com";
                  Facade.WithBucket "test-bucket"; Facade.WithBufferSize 1]
      = Facade.NewS3 fs
      /\ Facade.a_region fs = "us-east-1"
      /\ Facade.a_bucket fs = Some "test-bucket"
      /\ Facade.a_bufLen fs = 1
      /\ Facade.a_endpoint fs = "https://s3.us-west-2.amazonaws.com")
  /\ (Facade.New ok2 ok1 ok1
                 [Facade.WithEndpoint "https://acct.blob.core.windows.net"]
      = Facade.NewError
      \/ Facade.New ok2 ok1 ok1
                    [Facade.WithEndpoint "https://acct.blob.core.windows.net"]
         = Facade.NewPanic).
Proof.
  intros ok2 ok1. split.
  - apply (New_chooses_backend_by_endpoint ok2 ok1 ok1
             [Facade.WithEndpoint "https://s3.us-west-2.amazonaws.com";
              Facade.WithBucket "test-bucket"; Facade.WithBufferSize 1]).
    vm_compute. reflexivity.
  - apply (New_chooses_backend_by_endpoint ok2 ok1 ok1
             [Facade.WithEndpoint "https://acct.blob.core.windows.net"]).
    + vm_compute. reflexivity.
    + reflexivity.
Defined.

(** X18. From the options to the wire.  On an S3 endpoint, a filesystem
    made by [New] with a bucket and then a buffer size [n] as its last two
    options opens [name] by sending, as its first SDK request, a
    [GetObject] for that bucket and key: with the range ["bytes=0-(n-1)"]
    when [n >= 1], and with no range at all when [n = 0].  This holds
    whatever the SDK answers. *)
Theorem New_then_Open_first_request
        (cred_ok : string -> string -> bool) (shared_ok anon_ok : string -> bool)
        (opts : list Facade.Option) (bucket name_ : string) (n : Z)
        (answers : list (client_error + Adapters.sdk_output)) :
  Facade.Contains
    (Facade.a_endpoint (fold_left (fun fs op => op fs) opts Facade.zero))
    "blob.core" = false ->
  0 <= n <= Int64.max_int ->
  exists fs o e' err,
    Facade.New cred_ok shared_ok anon_ok
               (opts ++ [Facade.WithBucket bucket; Facade.WithBufferSize n])
    = Facade.NewS3 fs
    /\ Facade.awsS3_OpenWithContext fs name_ (mkEnv (Sdk.mkWorld answers []) [])
       = Some (o, e', err)
    /\ hd_error (Sdk.seen (world e'))
       = Some (Adapters.mkGetObjectInput
                 bucket name_
                 (if n =? 0 then None
                  else Some (Adapters.range_header 0 (n - 1)))).
Proof.
  intros Hend Hn.
  unfold Int64.max_int in Hn. change (2 ^ 63) with 9223372036854775808 in Hn.
  set (fs0 := fold_left (fun fs op => op fs) opts Facade.zero) in *.
  unfold Facade.New. rewrite fold_left_app. cbn [fold_left].
  change (fold_left (fun fs op => op fs) opts Facade.zero) with fs0.
  set (fs1 := Facade.WithBufferSize n (Facade.WithBucket bucket fs0)).
  set (fs := if String.eqb (Facade.a_region fs1) ""
             then Facade.WithRegion "us-east-1" fs1 else fs1).
  assert (He : Facade.a_endpoint fs = Facade.a_endpoint fs0)
    by (subst fs; destruct (String.eqb (Facade.a_region fs1) ""); reflexivity).
  assert (Hb : Facade.a_bucket fs = Some bucket)
    by (subst fs; destruct (String.eqb (Facade.a_region fs1) ""); reflexivity).
  assert (Hl : Facade.a_bufLen fs = n)
    by (subst fs; destruct (String.eqb (Facade.a_region fs1) ""); reflexivity).
  rewrite He, Hend.
  set (get := Adapters.s3Client_getObject _ Sdk.call bucket).
  set (e0 := mkEnv (Sdk.mkWorld answers ([] : list Adapters.GetObjectInput)) []).
  assert (Hopen : Facade.awsS3_OpenWithContext fs name_ e0
                  = Some (fillChunk get false (new_object n name_) e0)).
  { unfold Facade.awsS3_OpenWithContext. rewrite Hb, Hl. reflexivity. }
  pose proof (fillChunk_preserves _ get
                (fun e => Sdk.seen (world e) = map (Sdk.s3_input_of bucket) (calls e))
                (s3_call_recorded bucket) false (new_object n name_) e0 eq_refl)
    as Hseen.
  destruct (fillChunk_first_call _ get false (new_object n name_) e0) as [rest Hfirst].
  destruct (fillChunk get false (new_object n name_) e0) as [[o e'] err].
  cbn [fst snd] in Hseen, Hfirst.
  exists fs, o, e', err. split; [reflexivity |]. split; [exact Hopen |].
  rewrite Hseen, Hfirst. cbn [calls e0 app map hd_error new_object bufLen name
                               dlOffset size Sdk.s3_input_of].
  f_equal. destruct (Z.eqb_spec n 0) as [E | Hne].
  - reflexivity.
  - rewrite add64_id, sub64_id by lia.
    unfold Adapters.s3_input, Adapters.range_header. cbn [Z.gtb Z.compare].
    replace (0 + n - 1) with (n - 1) by lia. reflexivity.
Qed.

Lemma New_then_Open_first_request_witness :
  let ok2 := fun _ _ : string => true in
  let ok1 := fun _ : string => true in
  exists fs o e' err,
    Facade.New ok2 ok1 ok1
               ([Facade.WithCredential "AK" "SK"]
                  ++ [Facade.WithBucket "test-bucket"; Facade.WithBufferSize 1])
    = Facade.NewS3 fs
    /\ Facade.awsS3_OpenWithContext fs "hello.txt" (mkEnv (Sdk.mkWorld [] []) [])
       = Some (o, e', err)
    /\ hd_error (Sdk.seen (world e'))
       = Some (Adapters.mkGetObjectInput
                 "test-bucket" "hello.txt"
                 (if 1 =? 0 then None
                  else Some (Adapters.range_header 0 (1 - 1)))).
Proof.
  intros ok2 ok1.
  apply (New_then_Open_first_request ok2 ok1 ok1
           [Facade.WithCredential "AK" "SK"] "test-bucket" "hello.txt" 1 []).
  - vm_compute. reflexivity.
  - vm_compute. split; discriminate.
Defined.


(* ------------------------------------------------------------------ *)
(** * The requests of a sequential read *)

Section SequentialCalls.

Variable st : Store.store.
Variable key : string.
Variable b : Store.blob.
Variable c : Z.
Variable ks : nat -> nat.

Hypothesis Hkey : Store.lookup st key = Some b.
Hypothesis Hsize : Store.blob_size b <= 2 ^ 62.
Hypothesis Hc : 1 <= c <= Int64.max_int.
Hypothesis Hks : forall i, (1 <= ks i)%nat.

Lemma Read_buffered_loaded (k : nat) (d r : Z) (e : env Store.store) :
  0 <= r <= d -> d <= Store.blob_size b -> r < Store.blob_size b ->
  d = Store.blob_size b \/ Z.of_nat k <= d - r ->
  Read Store.getObject k (loaded b c key d r) e
  = (loaded b c key d (r + Z.of_nat (Nat.min k (Z.to_nat (d - r)))), e,
     ReadOk (firstn (Nat.min k (Z.to_nat (d - r)))
                    (skipn (Z.to_nat r) (buf (loaded b c key d r))))).
Proof.
  intros Hr Hd Hrn Hcase. pose proof (n_bounds b Hsize) as Hnb.
  assert (HL : buf_Len (loaded b c key d r) = d)
    by (apply buf_Len_loaded; lia).
  rewrite (Read_buffered _ Store.getObject k (loaded b c key d r) e).
  - rewrite HL. reflexivity.
  - cbn [loaded rOffset size]. lia.
  - rewrite HL. cbn [loaded rOffset]. lia.
  - rewrite HL. unfold Int64.max_int. change (2 ^ 63) with 9223372036854775808. lia.
  - rewrite HL. cbn [loaded rOffset dlOffset completelyLoaded].
    destruct Hcase as [E | Hk]; [left; apply Z.eqb_eq; exact E | right; lia].
Qed.

(** One [Read] of a sequential session, with the calls it adds: none
    when enough is buffered or the handle is complete, the next chunk
    otherwise. *)
Lemma Read_store_sequential (k : nat) (d r : Z) (log : list request) :
  (1 <= k)%nat ->
  0 <= r <= d -> d <= Store.blob_size b -> (d < Store.blob_size b -> c <= d) ->
  r < Store.blob_size b ->
  let fetch := (d <? Store.blob_size b) && (d - r <? Z.of_nat k) in
  let d' := if fetch then Z.min (d + c) (Store.blob_size b) else d in
  exists m copied,
    Read Store.getObject k (loaded b c key d r) (mkEnv st log)
    = (loaded b c key d' (r + Z.of_nat m),
       mkEnv st (log ++ (if fetch then [(key, d, d + c - 1)] else [])),
       ReadOk copied)
    /\ (1 <= m)%nat /\ r + Z.of_nat m <= d'.
Proof.
  intros Hk Hr Hd Hcd Hrn fetch d'. pose proof (c_bounds c Hc) as Hcb.
  pose proof (n_bounds b Hsize) as Hnb.
  destruct (Z.ltb_spec d (Store.blob_size b)) as [Hlt | Hge];
    [destruct (Z.ltb_spec (d - r) (Z.of_nat k)) as [Hshort | Henough] |];
    cbn [andb] in fetch; subst fetch d'; cbv iota.
  - rewrite (Read_store_next_chunk st key b c Hkey Hsize Hc k d r log) by lia.
    do 2 eexists. split; [reflexivity |]. lia.
  - rewrite Read_buffered_loaded by lia.
    rewrite app_nil_r. do 2 eexists. split; [reflexivity |]. lia.
  - rewrite Read_buffered_loaded by lia.
    rewrite app_nil_r. do 2 eexists. split; [reflexivity |]. lia.
Qed.

Lemma read_to_eof_store_calls :
  forall (fuel i : nat) (j : nat) (d r : Z) (acc : list Byte.byte),
    (1 <= j)%nat ->
    d = Z.min (Z.of_nat j * c) (Store.blob_size b) ->
    (Z.of_nat j - 1) * c < Store.blob_size b ->
    0 <= r <= d ->
    Store.blob_size b - r < Z.of_nat fuel ->
    exists o' j' res,
      read_to_eof Store.getObject fuel ks i (loaded b c key d r)
                  (mkEnv st (map (chunk_request key c) (seq 0 j))) acc
      = Some (o', mkEnv st (map (chunk_request key c) (seq 0 j')), res)
      /\ (j <= j')%nat
      /\ (Z.of_nat j' - 1) * c < Store.blob_size b <= Z.of_nat j' * c.
Proof.
  pose proof (c_bounds c Hc) as Hcb. pose proof (n_bounds b Hsize) as Hnb.
  induction fuel as [| f IH]; intros i j d r acc Hj Hd Hprev Hr Hf; [lia |].
  cbn [read_to_eof].
  destruct (Z.lt_ge_cases r (Store.blob_size b)) as [Hlt | Hge].
  - assert (HRS := Read_store_sequential (ks i) d r
                     (map (chunk_request key c) (seq 0 j)) (Hks i)).
    assert (Hcd : d < Store.blob_size b -> c <= d) by (intros; nia).
    specialize (HRS ltac:(lia) ltac:(lia) Hcd ltac:(lia)).
    cbv zeta in HRS. destruct HRS as [m [copied [HR [Hm Hrm]]]].
    rewrite HR.
    destruct ((d <? Store.blob_size b) && (d - r <? Z.of_nat (ks i))) eqn:Hfetch.
    + apply andb_true_iff in Hfetch. destruct Hfetch as [Hdn _].
      apply Z.ltb_lt in Hdn.
      assert (Hdj : d = Z.of_nat j * c) by lia.
      replace (map (chunk_request key c) (seq 0 j) ++ [(key, d, d + c - 1)])
        with (map (chunk_request key c) (seq 0 (S j))).
      2:{ rewrite seq_S, map_app. cbn [map Nat.add]. unfold chunk_request.
          rewrite Hdj.
          replace ((Z.of_nat j + 1) * c - 1) with (Z.of_nat j * c + c - 1) by lia.
          reflexivity. }
      destruct (IH (S i) (S j) (Z.min (d + c) (Store.blob_size b))
                   (r + Z.of_nat m) (acc ++ copied))
        as [o' [j' [res [HI [Hjj Hb]]]]]; try lia.
      exists o', j', res. split; [exact HI |]. split; lia.
    + rewrite app_nil_r.
      destruct (IH (S i) j d (r + Z.of_nat m) (acc ++ copied))
        as [o' [j' [res [HI [Hjj Hb]]]]]; try lia.
      exists o', j', res. split; [exact HI |]. split; lia.
  - rewrite Read_past_size by (cbn [loaded size rOffset]; lia).
    exists (loaded b c key d r), j, (ReadOk acc).
    split; [reflexivity |]. split; lia.
Qed.

End SequentialCalls.

(** X19. A sequential read asks for every chunk exactly once, in order.
    Opening a non-empty object of [n] bytes with chunk size [c >= 1] and
    reading it to [io.EOF], with destinations of any positive lengths,
    makes in total the calls for the chunks 0, 1, ..., [j - 1], the
    [i]-th being the range [[i c, (i + 1) c - 1]], where [j] is the number
    of chunks that cover the object, [(j - 1) c < n <= j c]: no range is
    requested twice and none is skipped. *)
Theorem sequential_read_requests_each_chunk_once
        (st : Store.store) (key : string) (b : Store.blob) (c : Z)
        (ks : nat -> nat) (fuel : nat) :
  Store.lookup st key = Some b ->
  1 <= Store.blob_size b <= 2 ^ 62 ->
  1 <= c <= Int64.max_int ->
  (forall i, (1 <= ks i)%nat) ->
  Store.blob_size b < Z.of_nat fuel ->
  exists o e o' e' res j,
    OpenWithContext Store.getObject c key (mkEnv st []) = (o, e, None)
    /\ read_to_eof Store.getObject fuel ks 0 o e [] = Some (o', e', res)
    /\ calls e' = map (chunk_request key c) (seq 0 j)
    /\ (Z.of_nat j - 1) * c < Store.blob_size b <= Z.of_nat j * c.
Proof.
  intros Hkey [Hn1 Hsize] Hc Hks Hfuel.
  pose proof (c_bounds c Hc) as Hcb.
  pose proof (OpenWithContext_store_nonempty st key b c Hkey Hsize Hc Hn1) as Hopen.
  destruct (read_to_eof_store_calls st key b c ks Hkey Hsize Hc Hks fuel 0%nat 1%nat
              (Z.min c (Store.blob_size b)) 0 [])
    as [o' [j [res [HR [_ Hj]]]]]; try lia.
  cbn [seq map] in HR. unfold chunk_request at 1 in HR.
  replace (Z.of_nat 0 * c) with 0 in HR by lia.
  replace ((Z.of_nat 0 + 1) * c - 1) with (c - 1) in HR by lia.
  do 6 eexists. split; [exact Hopen |]. split; [exact HR |].
  split; [reflexivity | exact Hj].
Qed.

Lemma sequential_read_requests_each_chunk_once_witness :
  exists o e o' e' res j,
    OpenWithContext Store.getObject 5 "hello.txt" (mkEnv hello_store [])
    = (o, e, None)
    /\ read_to_eof Store.getObject 13 (fun _ => 3%nat) 0 o e []
       = Some (o', e', res)
    /\ calls e' = map (chunk_request "hello.txt" 5) (seq 0 j)
    /\ (Z.of_nat j - 1) * 5 < 12 <= Z.of_nat j * 5.
Proof.
  apply (sequential_read_requests_each_chunk_once
           hello_store "hello.txt"
           (Store.mkBlob (bytes_of "hello, world") 42) 5 (fun _ => 3%nat) 13%nat).
  - reflexivity.
  - vm_compute. split; discriminate.
  - vm_compute. split; discriminate.
  - intros i. lia.
  - vm_compute. reflexivity.
Defined.
